(** * Code-sorting puzzle (main.py): segmentation, puzzle state, catalogue
      lookup and sandboxed execution.

    The development is a shallow embedding of the logic of
    [CodeSortingApp] in [src/main.py].  Python values are modelled as
    follows.

    - [str] is a list of Unicode code points (a Python 3 [str] is a
      sequence of code points, and [strip] works on code points).
    - [List[str]] and [List[List[str]]] are Rocq lists.
    - [Optional[int]] is [option Z].
    - The widgets, the file system, the random generator, the clock and the
      sub-processes are not part of the program: the file system and the
      sub-process results are arguments of the functions that use them,
      random draws are read from an explicit tape, and what the program
      shows or launches is returned as a list of events. *)

From Stdlib Require Import Strings.String Strings.Ascii Numbers.DecimalString.
From Stdlib Require Import List ZArith NArith Lia Bool Arith Permutation.
From Equations Require Import Equations.
Import ListNotations.

(** ** Python strings *)

Module Py.

Definition char := N.
Definition str := list char.

(** Code points of a literal written in this (UTF-8 encoded) file. *)
Fixpoint utf8_go (need : nat) (acc : N) (s : string) : str :=
  match s with
  | EmptyString => []
  | String a s' =>
    let b := N_of_ascii a in
    match need with
    | O =>
      if N.ltb b 128 then b :: utf8_go 0 0 s'
      else if N.ltb b 224 then utf8_go 1 (N.land b 31) s'
      else if N.ltb b 240 then utf8_go 2 (N.land b 15) s'
      else utf8_go 3 (N.land b 7) s'
    | S k =>
      let acc' := (acc * 64 + N.land b 63)%N in
      match k with
      | O => acc' :: utf8_go 0 0 s'
      | S _ => utf8_go k acc' s'
      end
    end
  end.

Definition lit (s : string) : str := utf8_go 0 0 s.

Definition nl : char := 10%N.
Definition space : char := 32%N.

(** [a == b] on strings. *)
Fixpoint eqb (a b : str) : bool :=
  match a, b with
  | [], [] => true
  | x :: a', y :: b' => N.eqb x y && eqb a' b'
  | _, _ => false
  end.

(** Truth value of a string or of a list: non-empty. *)
Definition truthy {A} (l : list A) : bool :=
  match l with [] => false | _ :: _ => true end.

(** The characters [str.strip()] removes: Py_UNICODE_ISSPACE. *)
Definition isspace (c : char) : bool :=
  ((9 <=? c) && (c <=? 13) || (28 <=? c) && (c <=? 32)
   || (c =? 133) || (c =? 160) || (c =? 5760)
   || (8192 <=? c) && (c <=? 8202)
   || (c =? 8232) || (c =? 8233) || (c =? 8239) || (c =? 8287)
   || (c =? 12288))%N.

Fixpoint dropwhile {A} (p : A -> bool) (l : list A) : list A :=
  match l with
  | [] => []
  | x :: l' => if p x then dropwhile p l' else l
  end.

(** [s.lstrip()], [s.rstrip()], [s.strip()]. *)
Definition lstrip (s : str) : str := dropwhile isspace s.
Definition rstrip (s : str) : str := rev (dropwhile isspace (rev s)).
Definition strip (s : str) : str := rstrip (lstrip s).

(** [s.lstrip(" ")]. *)
Definition lstrip_spaces (s : str) : str := dropwhile (N.eqb space) s.

(** [s.startswith(p)], [s.endswith(p)]. *)
Fixpoint startswith (s p : str) : bool :=
  match p, s with
  | [], _ => true
  | y :: p', x :: s' => N.eqb x y && startswith s' p'
  | _ :: _, [] => false
  end.

Definition endswith (s p : str) : bool := startswith (rev s) (rev p).

(** [sep.join(parts)]; ["".join(parts)] is [join [] parts]. *)
Fixpoint join (sep : str) (parts : list str) : str :=
  match parts with
  | [] => []
  | [p] => p
  | p :: rest => p ++ sep ++ join sep rest
  end.

(** [old in s]. *)
Fixpoint contains (s old : str) : bool :=
  startswith s old || match s with [] => false | _ :: s' => contains s' old end.

(** [s.replace(old, new)] for a non-empty [old]: occurrences are replaced
    from the left and do not overlap.  [skip] counts the characters of an
    occurrence that are still to be passed over. *)
Fixpoint replace_go (old new : str) (skip : nat) (s : str) : str :=
  match s with
  | [] => []
  | c :: s' =>
    match skip with
    | S k => replace_go old new k s'
    | O =>
      if startswith s old
      then new ++ replace_go old new (length old - 1) s'
      else c :: replace_go old new 0 s'
    end
  end.

Definition replace (s old new : str) : str := replace_go old new 0 s.

(** [str(n)] for an integer. *)
Definition str_of_int (n : Z) : str :=
  lit (NilZero.string_of_int (Z.to_int n)).

(** [f.readlines()] on the text of a file as text mode delivers it (decoded,
    line ends translated to a line feed): the text is cut after every line
    feed, and the terminators are kept. *)
Fixpoint readlines_go (cur : str) (text : str) : list str :=
  match text with
  | [] => match cur with [] => [] | _ => [cur] end
  | c :: text' =>
    if N.eqb c nl then (cur ++ [c]) :: readlines_go [] text'
    else readlines_go (cur ++ [c]) text'
  end.

Definition readlines (text : str) : list str := readlines_go [] text.

End Py.

Import Py.

(** A line of code, a block of lines, and the text a block is shown as. *)
Definition block := list str.

Definition block_text (b : block) : str := join [] b.

(** ** Segmentation *)

(** [line.strip()] is truthy: the line has a character that is not white
    space. *)
Definition non_empty (line : str) : bool := truthy (strip line).

(** [blocks[-1].extend(current_block)]. *)
Definition extend_last (blocks : list block) (current_block : block)
  : list block :=
  removelast blocks ++ [last blocks [] ++ current_block].

(** One iteration of the [for line in lines] loop of
    [split_into_blocks_by_lines], on the pair [(blocks, current_block)]. *)
Definition blocks_step (block_size : Z) (st : list block * block)
  (line : str) : list block * block :=
  let '(blocks, current_block) := st in
  if negb (non_empty line) then st
  else
    let current_block := current_block ++ [line] in
    if (Z.of_nat (length current_block) =? block_size)%Z
    then (blocks ++ [current_block], [])
    else (blocks, current_block).

(** The block size chosen when the caller gives none. *)
Definition auto_block_size (total_lines : Z) : Z :=
  if (total_lines <=? 40)%Z then 3%Z
  else if (total_lines <=? 60)%Z then 4%Z
  else 5%Z.

Definition split_into_blocks_by_lines (lines : list str)
  (block_size : option Z) : list block :=
  let non_empty_lines := filter non_empty lines in
  let total_lines := Z.of_nat (length non_empty_lines) in
  let block_size :=
    match block_size with
    | Some b => b
    | None => auto_block_size total_lines
    end in
  let '(blocks, current_block) :=
    fold_left (blocks_step block_size) lines
      (([] : list block), ([] : block)) in
  if truthy current_block then
    if truthy blocks then extend_last blocks current_block
    else blocks ++ [current_block]
  else blocks.

(** [get_indent]: the number of leading spaces. *)
Definition get_indent (line : str) : nat :=
  length line - length (lstrip_spaces line).

(** The keywords that open a logical block. *)
Definition block_keywords : list str :=
  map lit ["def "; "if "; "for "; "while "; "try"; "except"; "else";
           "elif"; "with "]%string.

(** [line.strip().startswith((...))]. *)
Definition opens_block (line : str) : bool :=
  existsb (startswith (strip line)) block_keywords.

(** The condition of the inner [while] of [split_into_logical_blocks]:
    the line is blank, or indented deeper than the header. *)
Definition in_body (indent : nat) (line : str) : bool :=
  eqb (strip line) [] || (indent <? get_indent line).

(** The inner [while]: from the lines that follow a header, the lines taken
    into its block and the lines left for the outer loop. *)
Fixpoint take_body (indent : nat) (rest : list str) : block * list str :=
  match rest with
  | [] => ([], [])
  | line :: rest' =>
    if in_body indent line
    then let '(body, after) := take_body indent rest' in (line :: body, after)
    else ([], rest)
  end.

(** The outer [while i < len(lines)]; the argument is [lines[i:]]. *)
Equations? logical_blocks_from (rest : list str) : list block
  by wf (length rest) lt :=
  logical_blocks_from [] := [];
  logical_blocks_from (line :: rest') with non_empty line := {
    | false := logical_blocks_from rest';
    | true with opens_block line := {
      | true := (line :: fst (take_body (get_indent line) rest'))
                  :: logical_blocks_from
                       (snd (take_body (get_indent line) rest'));
      | false := [line] :: logical_blocks_from rest' } }.
Proof.
  all: simpl; try lia.
  apply Nat.lt_succ_r. clear logical_blocks_from.
  generalize (get_indent line) as indent.
  induction rest' as [|l rest' IH]; intros indent; simpl; [lia|].
  destruct (in_body indent l); simpl; [|lia].
  specialize (IH indent).
  destruct (take_body indent rest'); simpl in *; lia.
Qed.

Definition split_into_logical_blocks (lines : list str) : list block :=
  logical_blocks_from lines.

(** ** Random draws *)

(** [random] is read from a tape of raw draws; [randbelow] reduces a draw
    to the range it is asked for. *)
Definition randbelow (draw n : nat) : nat := draw mod n.

(** [random.choice(seq)] is [seq[randbelow(len(seq))]]. *)
Definition random_choice {A} (draw : nat) (seq : list A) : option A :=
  nth_error seq (randbelow draw (length seq)).

(** [x[i] = v] for an index in range. *)
Fixpoint set_item {A} (i : nat) (v : A) (x : list A) : list A :=
  match x, i with
  | [], _ => []
  | _ :: x', O => v :: x'
  | a :: x', S i' => a :: set_item i' v x'
  end.

(** [x[i], x[j] = x[j], x[i]]. *)
Definition swap_items {A} (i j : nat) (x : list A) : list A :=
  match nth_error x j, nth_error x i with
  | Some xj, Some xi => set_item j xi (set_item i xj x)
  | _, _ => x
  end.

(** [random.shuffle(x)]:
    [for i in reversed(range(1, len(x))): j = randbelow(i + 1); swap].
    The first argument counts [i] down. *)
Fixpoint shuffle_from {A} (i : nat) (tape : list nat) (x : list A) : list A :=
  match i with
  | O => x
  | S i' =>
    let j := randbelow (hd 0 tape) (i + 1) in
    shuffle_from i' (tl tape) (swap_items i j x)
  end.

Definition random_shuffle {A} (tape : list nat) (x : list A) : list A :=
  shuffle_from (length x - 1) tape x.

(** ** The application state *)

(** The three attributes [__init__] sets, the rows of the list widget (the
    arrangement the user sees and drags) and the text of the label. *)
Record App := mkApp {
  code_blocks : list block;
  correct_order : list block;
  current_file : str;
  list_widget : list str;
  label : str
}.

Definition initial : App :=
  mkApp [] [] [] [] (lit "Натисніть завантажити код, щоб розпочати").

(** [self.list_widget.clear()]. *)
Definition clear_list (s : App) : App :=
  mkApp (code_blocks s) (correct_order s) (current_file s) [] (label s).

(** What a path names on disk. *)
Inductive node :=
| Missing
| Dir (names : list str)
| File (text : str).

Inductive icon := Information | Warning.

(** What a handler shows, writes or launches. *)
Inductive event :=
| critical (title text : str)
| message_box (title text : str) (i : icon)
| window_shown (text : str)
| file_written (path content : str)
| compiler_run (argv : list str)
| process_spawned (argv : list str).

(** A handler returns with a new state and its events, or an exception
    leaves it uncaught. *)
Inductive outcome :=
| returned (s : App) (log : list event)
| raised.

(** Dragging a row of the list widget ([InternalMove]): the row at [src]
    is taken out and put back at [dst]. *)
Definition move_row {A} (src dst : nat) (rows : list A) : list A :=
  match nth_error rows src with
  | None => rows
  | Some x =>
    let others := firstn src rows ++ skipn (S src) rows in
    firstn dst others ++ x :: skipn dst others
  end.

Definition reorder (src dst : nat) (s : App) : App :=
  mkApp (code_blocks s) (correct_order s) (current_file s)
        (move_row src dst (list_widget s)) (label s).

(** [user_blocks] and [correct_blocks] of [check_order] and [run_code]. *)
Definition user_blocks (s : App) : list str := list_widget s.

Definition correct_blocks (s : App) : list str :=
  map block_text (correct_order s).

(** [==] on lists of strings. *)
Fixpoint blocks_eqb (a b : list str) : bool :=
  match a, b with
  | [], [] => true
  | x :: a', y :: b' => eqb x y && blocks_eqb a' b'
  | _, _ => false
  end.

Definition dq : char := 34%N.

Definition check_order (s : App) : event :=
  if blocks_eqb (user_blocks s) (correct_blocks s)
  then message_box (lit "Результат") (lit "Правильно!") Information
  else message_box (lit "Результат")
         (lit "Щось не так, в порядку є помилка. Спробуй ще раз)") Warning.

Definition show_output_window (output errors : str) : event :=
  if truthy errors then
    window_shown (lit "❗ ПОМИЛКИ:" ++ [nl] ++ errors ++ [nl; nl]
                  ++ lit "---" ++ [nl] ++ lit "🔽 Вивід:" ++ [nl] ++ output)
  else
    window_shown (if truthy output then output
                  else lit "Програма завершена без виводу.").

Section World.

(** [os.path.join], the file system, [str.upper], [platform.system()],
    [int(time.time())], and the results of writing a file, of
    [subprocess.run] and of [subprocess.Popen]: [Some e] and [inl e] are an
    exception whose text is [e]. *)
Variable path_join : str -> list str -> str.
Variable fs : str -> node.
Variable upper : str -> str.
Variable platform_system : str.
Variable timestamp : Z.
Variable write_file : str -> str -> option str.
Variable subprocess_run : list str -> str + (Z * str * str).
Variable subprocess_popen : list str -> option str.

Definition load_code_by_language_and_difficulty (tape : list nat)
  (language difficulty : str) (s : App) : outcome :=
  let s := clear_list s in
  let folder := path_join (lit "snippets") [language; difficulty] in
  match fs folder with
  | Missing =>
    returned s [critical (lit "Помилка")
                  (lit "Папка '" ++ folder ++ lit "' не знайдена.")]
  | File _ => raised
  | Dir names =>
    let files := filter (fun f => endswith f (lit ".txt")) names in
    if negb (truthy files) then
      returned s [critical (lit "Помилка")
                    (lit "Немає кодів у папці '" ++ folder ++ lit "'.")]
    else
      match random_choice (hd 0 tape) files with
      | None => raised
      | Some current_file =>
        match fs (path_join folder [current_file]) with
        | File text =>
          let lines := readlines text in
          let code_blocks := split_into_blocks_by_lines lines (Some 3%Z) in
          let correct_order := map (fun block : block => block) code_blocks in
          let code_blocks := random_shuffle (tl tape) code_blocks in
          returned
            (mkApp code_blocks correct_order current_file
               (map block_text code_blocks)
               (lit "Файл: " ++ current_file ++ lit " | Мова: "
                ++ upper language ++ lit " | Рівень: " ++ difficulty))
            []
        | _ => raised
        end
      end
  end.

Definition _run_python_code (code : str) (timestamp : Z) : list event :=
  if negb (eqb platform_system (lit "Windows")) then
    [critical (lit "Непідтримувано")
       (lit "Запуск з input() працює тільки на Windows.")]
  else
    let temp_file := lit "temp_code_" ++ str_of_int timestamp ++ lit ".py" in
    let content :=
      code
      ++ ([nl; nl] ++ lit "input('\nНатисни Enter, щоб закрити...')" ++ [nl])
      ++ (lit "import os" ++ [nl] ++ lit "os.remove(__file__)" ++ [nl]) in
    match write_file temp_file content with
    | Some e => [critical (lit "Помилка запуску") e]
    | None =>
      match subprocess_popen [lit "python"; temp_file] with
      | Some e =>
        [file_written temp_file content; critical (lit "Помилка запуску") e]
      | None =>
        [file_written temp_file content;
         process_spawned [lit "python"; temp_file]]
      end
    end.

(** The statement that waits for Enter. *)
Definition press_enter : str :=
  lit "std::cout << " ++ [dq] ++ lit "\nPress Enter to exit..." ++ [dq]
  ++ lit "; std::cin.ignore(); std::cin.get();" ++ [nl].

(** [cpp_file], [exe_file] and the final value of [cpp_code] in
    [_run_cpp_code]. *)
Definition cpp_file_of (timestamp : Z) : str :=
  lit "temp_code_" ++ str_of_int timestamp ++ lit ".cpp".

Definition exe_file_of (timestamp : Z) : str :=
  lit "temp_code_" ++ str_of_int timestamp ++ lit ".exe".

Definition cpp_code_of (code : str) : str :=
  if contains code (lit "return 0;")
  then replace code (lit "return 0;") (press_enter ++ lit "    return 0;")
  else code ++ [nl] ++ press_enter.

Definition _run_cpp_code (code : str) (timestamp : Z) : list event :=
  let cpp_file := cpp_file_of timestamp in
  let exe_file := exe_file_of timestamp in
  let cpp_code := cpp_code_of code in
  match write_file cpp_file cpp_code with
  | Some e => [critical (lit "Compilation/Run Error") e]
  | None =>
    let argv := [lit "g++"; cpp_file; lit "-o"; exe_file] in
    match subprocess_run argv with
    | inl e =>
      [file_written cpp_file cpp_code;
       critical (lit "Compilation/Run Error") e]
    | inr (returncode, _, stderr) =>
      if negb (returncode =? 0)%Z then
        [file_written cpp_file cpp_code; compiler_run argv;
         show_output_window [] stderr]
      else
        match subprocess_popen [exe_file] with
        | Some e =>
          [file_written cpp_file cpp_code; compiler_run argv;
           critical (lit "Compilation/Run Error") e]
        | None =>
          [file_written cpp_file cpp_code; compiler_run argv;
           process_spawned [exe_file]]
        end
    end
  end.

Definition run_code (s : App) : list event :=
  if negb (blocks_eqb (user_blocks s) (correct_blocks s)) then
    [message_box (lit "Помилка")
       (lit "Код зібрано неправильно, спробуй ще раз)") Warning]
  else
    let code := join [nl] (user_blocks s) in
    if endswith (current_file s) (lit ".py.txt")
    then _run_python_code code timestamp
    else if endswith (current_file s) (lit ".cpp.txt")
    then _run_cpp_code code timestamp
    else [].

End World.

(** ** Sessions *)

(** A load that went through shows no error box. *)
Definition loaded (o : outcome) (s : App) : Prop := o = returned s [].

(** A sequence of drags. *)
Definition reorders (moves : list (nat * nat)) (s : App) : App :=
  fold_left (fun s m => reorder (fst m) (snd m) s) moves s.

(** The box [check_order] shows for a correct order. *)
Definition correct_box : event :=
  message_box (lit "Результат") (lit "Правильно!") Information.

(** ** A small catalogue for the worked examples *)

(** [posixpath.join]. *)
Definition posix_join (a : str) (p : list str) : str :=
  fold_left
    (fun path b =>
       if startswith b (lit "/") then b
       else if negb (truthy path) || endswith path (lit "/") then path ++ b
       else path ++ lit "/" ++ b)
    p a.

(** [str.upper] on ASCII letters. *)
Definition ascii_upper (s : str) : str :=
  map (fun c => if ((97 <=? c) && (c <=? 122))%N then (c - 32)%N else c) s.

Definition line (s : string) : str := lit s ++ [nl].

(** [snippets/python/easy] holds one puzzle of seven equal lines and a file
    that is not a puzzle; [snippets/cpp/easy] holds no [.txt] file;
    [snippets/cpp/hard] does not exist. *)
Definition demo_fs (path : str) : node :=
  if eqb path (lit "snippets/python/easy")
  then Dir [lit "notes.md"; lit "count.py.txt"]
  else if eqb path (lit "snippets/python/easy/count.py.txt")
  then File (concat (repeat (line "n += 1") 7))
  else if eqb path (lit "snippets/cpp/easy")
  then Dir [lit "README.md"]
  else Missing.

Definition demo_load (tape : list nat) (language difficulty : string)
  (s : App) : outcome :=
  load_code_by_language_and_difficulty posix_join demo_fs ascii_upper tape
    (lit language) (lit difficulty) s.

(** The session after loading [count.py.txt] with draws that swap its two
    blocks. *)
Definition demo_session : App :=
  match demo_load [0; 0] "python" "easy" initial with
  | returned s _ => s
  | raised => initial
  end.

(** The same session once the user has dragged the blocks into order. *)
Definition demo_solved : App := reorder 0 1 demo_session.

(** [line], read after the lines [before], lies in the block a header of
    [before] opened: every line since that header, and [line] itself, is
    blank or indented deeper than the header. *)
Definition inside_block (before : list str) (line : str) : Prop :=
  exists before0 h run,
    before = before0 ++ h :: run
    /\ opens_block h = true
    /\ forallb (in_body (get_indent h)) (run ++ [line]) = true.

(** A line that ends with a line feed. *)
Definition ends_nl (l : str) : Prop := exists l', l = l' ++ [nl].

(** A short program for the worked example of the logical strategy. *)
Definition demo_program : list str :=
  [line "total = 0"; line "for x in xs:"; line "    if x:"; line "";
   line "        total += x"; line "print(total)"].

(** A block as the scan builds it: a non-blank first line; behind a line
    that opens a block, only lines that are blank or indented deeper;
    behind any other line, nothing. *)
Definition well_formed_block (b : block) : Prop :=
  exists first rest,
    b = first :: rest
    /\ non_empty first = true
    /\ (if opens_block first
        then forallb (in_body (get_indent first)) rest = true
        else rest = []).

(** ** The rest of the window *)

(** [load_random_code]: the two dialogs, then the load.  A dialog gives
    [None] when it is closed without a choice and [Some v] when a button
    chose [v]; the second dialog is not reached when the first is closed. *)
Definition load_random_code (path_join : str -> list str -> str)
  (fs : str -> node) (upper : str -> str) (tape : list nat)
  (lang_dialog diff_dialog : option str) (s : App) : outcome :=
  match lang_dialog with
  | None => returned s []
  | Some language =>
    match diff_dialog with
    | None => returned s []
    | Some difficulty =>
      if truthy language && truthy difficulty
      then load_code_by_language_and_difficulty path_join fs upper tape
             language difficulty s
      else returned s []
    end
  end.

(** What the user can do that changes the state: press a load button and
    answer the dialogs, or drag a row.  Checking and running only show
    things. *)
Inductive action :=
| press_load (tape : list nat) (lang_dialog diff_dialog : option str)
| drag (src dst : nat).

(** The state after an action; [None] when the handler raised. *)
Definition perform (path_join : str -> list str -> str)
  (fs : str -> node) (upper : str -> str) (a : action) (s : App)
  : option App :=
  match a with
  | press_load tape lang_dialog diff_dialog =>
    match load_random_code path_join fs upper tape lang_dialog diff_dialog s
    with
    | returned s' _ => Some s'
    | raised => None
    end
  | drag src dst => Some (reorder src dst s)
  end.

(** The states the window goes through, from its creation. *)
Inductive reachable (path_join : str -> list str -> str)
  (fs : str -> node) (upper : str -> str) : App -> Prop :=
| reach_initial : reachable path_join fs upper initial
| reach_step a s s' :
    reachable path_join fs upper s ->
    perform path_join fs upper a s = Some s' ->
    reachable path_join fs upper s'.

(** Drags, on the rows alone. *)
Definition apply_moves {A} (moves : list (nat * nat)) (rows : list A)
  : list A :=
  fold_left (fun r m => move_row (fst m) (snd m) r) moves rows.

(** [text.count(c)] for one character. *)
Definition count_char (c : char) (text : str) : nat :=
  length (filter (N.eqb c) text).

(** The height [FancyItemDelegate.sizeHint] gives a row, for the line
    spacing of its font. *)
Definition sizeHint_height (lineSpacing : Z) (text : str) : Z :=
  let lines := (Z.of_nat (count_char nl text) + 1)%Z in
  (lines * lineSpacing + 20)%Z.

(** A second catalogue: a file of blank lines only, and a file of four
    lines. *)
Definition small_fs (path : str) : node :=
  if eqb path (lit "snippets/python/easy")
  then Dir [lit "blank.py.txt"]
  else if eqb path (lit "snippets/python/easy/blank.py.txt")
  then File (line "" ++ line "   " ++ line "")
  else if eqb path (lit "snippets/python/medium")
  then Dir [lit "tiny.py.txt"]
  else if eqb path (lit "snippets/python/medium/tiny.py.txt")
  then File (line "a = 1" ++ line "b = 2" ++ line "" ++ line "c = a + b"
             ++ line "print(c)")
  else Missing.

Definition small_load (tape : list nat) (language difficulty : string)
  (s : App) : outcome :=
  load_code_by_language_and_difficulty posix_join small_fs ascii_upper tape
    (lit language) (lit difficulty) s.

Definition blank_session : App :=
  match small_load [0] "python" "easy" initial with
  | returned s _ => s
  | raised => initial
  end.

Definition tiny_session : App :=
  match small_load [0] "python" "medium" initial with
  | returned s _ => s
  | raised => initial
  end.

(** ** The logical strategy in plain terms *)

(** The notions the statements about the logical strategy are written in,
    given directly and not through the functions of the program: a blank
    line has white space only; the indentation of a line is the number of
    space characters it starts with (a tab is not one); a header is a line
    whose trimmed text starts with one of the nine prefixes. *)
Definition blank_line (l : str) : Prop := forallb isspace l = true.

Fixpoint leading_spaces (l : str) : nat :=
  match l with
  | c :: l' => if N.eqb c space then S (leading_spaces l') else 0
  | [] => 0
  end.

Definition starts_with_keyword (l : str) : Prop :=
  exists kw rest,
    In kw (map lit ["def "; "if "; "for "; "while "; "try"; "except";
                    "else"; "elif"; "with "]%string)
    /\ strip l = kw ++ rest.

(** [l] belongs to the body of [header]: blank, or indented deeper. *)
Definition in_block_of (header l : str) : Prop :=
  blank_line l \/ leading_spaces header < leading_spaces l.

(** [l], read after [before], lies in the block of a header of [before]:
    every line since that header, and [l], belongs to its body. *)
Definition in_open_block (before : list str) (l : str) : Prop :=
  exists before0 h run,
    before = before0 ++ h :: run
    /\ starts_with_keyword h
    /\ Forall (in_block_of h) (run ++ [l]).

(** A header with a body indented by tabs, and a [class] with its body. *)
Definition tab : char := 9%N.

Definition tabbed_program : list str :=
  [line "if x:"; tab :: line "y = 1"; tab :: line "z = 2"].

Definition class_program : list str :=
  [line "class A:"; line "    x = 1"].

(** * Properties *)

(** ** Fixed-size segmentation *)

(** Blank lines do not move the loop. *)
Lemma blocks_loop_filter block_size lines st :
  fold_left (blocks_step block_size) lines st =
  fold_left (blocks_step block_size) (filter non_empty lines) st.
Proof.
  revert st; induction lines as [|line lines IH]; intros st; simpl; auto.
  destruct (non_empty line) eqn:E; simpl; auto.
  rewrite <- IH. f_equal. unfold blocks_step. destruct st. now rewrite E.
Qed.

(** The loop only moves lines from the input to the end of what it holds. *)
Lemma blocks_loop_concat block_size lines (blocks : list block)
  (current_block : block) :
  let '(blocks', current') :=
    fold_left (blocks_step block_size) lines (blocks, current_block) in
  concat blocks' ++ current' =
  concat blocks ++ current_block ++ filter non_empty lines.
Proof.
  revert blocks current_block.
  induction lines as [|line lines IH]; intros blocks current_block.
  - simpl. now rewrite app_nil_r.
  - cbn [fold_left filter]. unfold blocks_step at 2.
    destruct (non_empty line) eqn:E; cbn [negb]; [|apply IH].
    destruct (Z.of_nat (length (current_block ++ [line])) =? block_size)%Z.
    + specialize (IH (blocks ++ [current_block ++ [line]]) []).
      destruct (fold_left _ lines _) as [b' c'].
      rewrite IH, concat_app. simpl. now rewrite !app_nil_r, <- !app_assoc.
    + specialize (IH blocks (current_block ++ [line])).
      destruct (fold_left _ lines _) as [b' c'].
      rewrite IH. now rewrite <- !app_assoc.
Qed.

Lemma concat_extend_last (blocks : list block) current_block :
  blocks <> [] ->
  concat (extend_last blocks current_block) = concat blocks ++ current_block.
Proof.
  intros H. unfold extend_last.
  transitivity (concat (removelast blocks ++ [last blocks []])
                ++ current_block).
  - rewrite !concat_app. simpl. now rewrite !app_nil_r, app_assoc.
  - now rewrite <- app_removelast_last.
Qed.

Lemma split_concat lines block_size :
  concat (split_into_blocks_by_lines lines block_size) =
  filter non_empty lines.
Proof.
  unfold split_into_blocks_by_lines. cbv zeta.
  match goal with |- context [fold_left (blocks_step ?b) ?l ?i] =>
    pose proof (blocks_loop_concat b lines [] []) as H;
    change (let '(b', c') := fold_left (blocks_step b) l i in
            concat b' ++ c' = filter non_empty lines) in H;
    revert H;
    destruct (fold_left (blocks_step b) l i) as [blocks cur]
  end.
  intros <-.
  destruct cur as [|l cur]; simpl.
  - now rewrite app_nil_r.
  - destruct blocks as [|b blocks].
    + simpl. now rewrite app_nil_r.
    + change (truthy (b :: blocks)) with true. cbv iota.
      now rewrite concat_extend_last.
Qed.

(** Lines that do not fill the current block are appended to it. *)
Lemma blocks_loop_partial block_size blocks current_block partial :
  forallb non_empty partial = true ->
  (Z.of_nat (length current_block + length partial) < block_size)%Z ->
  fold_left (blocks_step block_size) partial (blocks, current_block) =
  (blocks, current_block ++ partial).
Proof.
  revert current_block.
  induction partial as [|line partial IH]; intros current_block Hne Hlen.
  - simpl. now rewrite app_nil_r.
  - simpl in Hne. apply andb_true_iff in Hne as [E Hne].
    cbn [fold_left]. unfold blocks_step at 2. rewrite E. cbn [negb].
    simpl length in Hlen.
    destruct (Z.eqb_spec (Z.of_nat (length (current_block ++ [line])))
                block_size) as [Heq|_].
    + rewrite length_app in Heq. simpl in Heq. lia.
    + rewrite IH; auto.
      * now rewrite <- app_assoc.
      * rewrite length_app. simpl. lia.
Qed.

(** Lines that fill the current block exactly complete it. *)
Lemma blocks_loop_fill block_size blocks current_block more :
  forallb non_empty more = true ->
  more <> [] ->
  Z.of_nat (length current_block + length more) = block_size ->
  fold_left (blocks_step block_size) more (blocks, current_block) =
  (blocks ++ [current_block ++ more], []).
Proof.
  revert current_block.
  induction more as [|line more IH]; intros current_block Hne Hnil Hlen;
    [congruence|].
  simpl in Hne. apply andb_true_iff in Hne as [E Hne].
  cbn [fold_left]. unfold blocks_step at 2. rewrite E. cbn [negb].
  simpl length in Hlen.
  destruct (Z.eqb_spec (Z.of_nat (length (current_block ++ [line])))
              block_size) as [Heq|Hneq].
  - rewrite length_app in Heq. simpl in Heq.
    assert (more = []) by (destruct more; [auto | simpl in *; lia]).
    subst more. reflexivity.
  - assert (more <> []).
    { intros ->. apply Hneq. rewrite length_app. simpl in *. lia. }
    rewrite IH; auto.
    + now rewrite <- app_assoc.
    + rewrite length_app. simpl. lia.
Qed.

Lemma forallb_concat {A} (p : A -> bool) (ls : list (list A)) :
  forallb p (concat ls) = forallb (forallb p) ls.
Proof.
  induction ls as [|l ls IH]; simpl; auto.
  now rewrite forallb_app, IH.
Qed.

(** Whole groups of [block_size] lines become one block each. *)
Lemma blocks_loop_complete block_size blocks complete :
  forallb (forallb non_empty) complete = true ->
  (0 < block_size)%Z ->
  Forall (fun b : block => Z.of_nat (length b) = block_size) complete ->
  fold_left (blocks_step block_size) (concat complete) (blocks, []) =
  (blocks ++ complete, []).
Proof.
  intros Hne Hpos Hall. revert blocks Hne.
  induction Hall as [|b complete Hb Hall IH]; intros blocks Hne; simpl.
  - now rewrite app_nil_r.
  - simpl in Hne. apply andb_true_iff in Hne as [Hb' Hne].
    rewrite fold_left_app.
    rewrite (blocks_loop_fill block_size blocks [] b); auto.
    + simpl. rewrite IH; auto. now rewrite <- app_assoc.
    + intros ->. simpl in Hb. lia.
Qed.

Lemma forallb_filter_id {A} (p : A -> bool) (l : list A) :
  forallb p (filter p l) = true.
Proof.
  induction l as [|x l IH]; simpl; auto.
  destruct (p x) eqn:E; simpl; auto. now rewrite E.
Qed.

(** C3.  Fixed-size strategy, trailing partial group.  When the non-blank
    lines of the input are some completed groups of [block_size] lines
    followed by a non-empty group of fewer than [block_size] lines, the
    lines of that last group are appended to the last completed block, and
    no short block is emitted; when no group was completed, the partial
    group is the only block. *)
Theorem trailing_partial_group_joins_last_block
  (lines : list str) (block_size : Z) (complete : list block)
  (partial : block) :
  filter non_empty lines = concat complete ++ partial ->
  Forall (fun b : block => Z.of_nat (length b) = block_size) complete ->
  partial <> [] ->
  (Z.of_nat (length partial) < block_size)%Z ->
  split_into_blocks_by_lines lines (Some block_size) =
    match complete with
    | [] => [partial]
    | _ :: _ => removelast complete ++ [last complete [] ++ partial]
    end.
Proof.
  intros Hlines Hall Hnil Hlt.
  pose proof (forallb_filter_id non_empty lines) as Hne.
  rewrite Hlines, forallb_app, forallb_concat in Hne.
  apply andb_true_iff in Hne as [Hc Hp].
  unfold split_into_blocks_by_lines. cbv zeta.
  rewrite blocks_loop_filter, Hlines, fold_left_app.
  rewrite (blocks_loop_complete block_size []); auto; [|lia].
  rewrite blocks_loop_partial; auto.
  simpl app. destruct partial as [|l partial]; [congruence|].
  cbn [truthy]. destruct complete; reflexivity.
Qed.

(** The scenario of the specification: ["a\n", "\n", "b\n", "c\n", "d\n"]
    with [block_size = 3] gives the single block of the four lines. *)
Lemma trailing_partial_group_example :
  let a := lit "a" ++ [nl] in
  let b := lit "b" ++ [nl] in
  let c := lit "c" ++ [nl] in
  let d := lit "d" ++ [nl] in
  (filter non_empty [a; [nl]; b; c; d] = concat [[a; b; c]] ++ [d]
   /\ Forall (fun x : block => Z.of_nat (length x) = 3%Z) [[a; b; c]]
   /\ [d] <> []
   /\ (Z.of_nat (length [d]) < 3)%Z)
  /\ split_into_blocks_by_lines [a; [nl]; b; c; d] (Some 3%Z) =
     [[a; b; c; d]].
Proof.
  intros a b c d.
  assert (H1 : filter non_empty [a; [nl]; b; c; d]
               = concat [[a; b; c]] ++ [d]) by reflexivity.
  assert (H2 : Forall (fun x : block => Z.of_nat (length x) = 3%Z)
                 [[a; b; c]]) by (repeat constructor).
  assert (H3 : [d] <> []) by discriminate.
  assert (H4 : (Z.of_nat (length [d]) < 3)%Z) by (simpl; lia).
  split; [now repeat split|].
  exact (trailing_partial_group_joins_last_block
           [a; [nl]; b; c; d] 3%Z [[a; b; c]] [d] H1 H2 H3 H4).
Defined.

(** C4.  Round trip of the fixed-size strategy.  For every input with at
    least one non-blank line and every block size (given or derived), the
    blocks, concatenated in the order they are returned, are exactly the
    non-blank lines of the input in their order: no line is dropped,
    duplicated or moved; and at least one block is returned. *)
Theorem fixed_size_round_trip (lines : list str) (block_size : option Z) :
  existsb non_empty lines = true ->
  concat (split_into_blocks_by_lines lines block_size) =
    filter non_empty lines
  /\ split_into_blocks_by_lines lines block_size <> [].
Proof.
  intros Hex. split; [apply split_concat|].
  intros Hnil.
  pose proof (split_concat lines block_size) as H.
  rewrite Hnil in H. simpl in H.
  apply existsb_exists in Hex as [line [Hin Hline]].
  assert (In line (filter non_empty lines)) by (apply filter_In; auto).
  rewrite <- H in *. contradiction.
Qed.

(** A file with blank lines and no final line feed, cut in blocks of 2. *)
Lemma fixed_size_round_trip_example :
  let lines := [lit "x = 1" ++ [nl]; lit "  " ++ [nl]; lit "y = 2" ++ [nl];
                lit "print(x)" ++ [nl]; [nl]; lit "print(y)"] in
  existsb non_empty lines = true
  /\ concat (split_into_blocks_by_lines lines (Some 2%Z)) =
     [lit "x = 1" ++ [nl]; lit "y = 2" ++ [nl]; lit "print(x)" ++ [nl];
      lit "print(y)"].
Proof.
  intros lines.
  assert (H : existsb non_empty lines = true) by reflexivity.
  split; [exact H|].
  exact (proj1 (fixed_size_round_trip lines (Some 2%Z) H)).
Defined.

(** ** Strings and rows *)

Lemma eqb_eq (a b : str) : eqb a b = true <-> a = b.
Proof.
  revert b; induction a as [|x a IH]; intros [|y b]; simpl;
    try (split; congruence).
  rewrite andb_true_iff, N.eqb_eq, IH. split.
  - intros [-> ->]. reflexivity.
  - intros E. injection E. auto.
Qed.

Lemma blocks_eqb_eq (a b : list str) : blocks_eqb a b = true <-> a = b.
Proof.
  revert b; induction a as [|x a IH]; intros [|y b]; simpl;
    try (split; congruence).
  rewrite andb_true_iff, eqb_eq, IH. split.
  - intros [-> ->]. reflexivity.
  - intros E. injection E. auto.
Qed.

Lemma join_empty_sep (parts : list str) : join [] parts = concat parts.
Proof.
  induction parts as [|p [|q parts] IH]; simpl in *; auto.
  - now rewrite app_nil_r.
  - now rewrite IH.
Qed.

Lemma join_cons2 (sep x y : str) (rest : list str) :
  join sep (x :: y :: rest) = x ++ sep ++ join sep (y :: rest).
Proof. reflexivity. Qed.

Lemma length_join_newline (rows : list str) :
  rows <> [] ->
  length (join [nl] rows) = length (concat rows) + (length rows - 1).
Proof.
  induction rows as [|x [|y rows] IH]; intros Hne; [congruence| |].
  - simpl. rewrite app_nil_r. lia.
  - rewrite join_cons2. cbn [concat]. rewrite !length_app, IH by discriminate.
    cbn [concat length]. rewrite !length_app. lia.
Qed.

(** ** Verification of the order *)

Lemma check_order_correct_box (s : App) :
  check_order s = correct_box <->
  blocks_eqb (user_blocks s) (correct_blocks s) = true.
Proof.
  unfold check_order, correct_box.
  destruct (blocks_eqb _ _); split; auto; discriminate.
Qed.

(** C1 (as amended).  [check_order] reports a correct order exactly when the
    rows of the list, read in sequence, are one by one the texts of the
    canonical blocks.  An accepted arrangement therefore has the canonical
    concatenated text; the converse is not promised. *)
Theorem check_order_accepts_iff_rows_match (s : App) :
  (check_order s = correct_box <->
   user_blocks s = map block_text (correct_order s))
  /\ (check_order s = correct_box ->
      join [] (user_blocks s) = join [] (map block_text (correct_order s))).
Proof.
  assert (H : check_order s = correct_box <->
              user_blocks s = map block_text (correct_order s)).
  { rewrite check_order_correct_box. apply blocks_eqb_eq. }
  split; [exact H|].
  intros Hc. apply H in Hc. now rewrite Hc.
Qed.

(** C1, counterexample.  In the session loaded from seven equal lines with
    its two blocks swapped, the rows concatenate to the canonical text, yet
    [check_order] does not report a correct order. *)
Lemma check_order_rejects_equal_concatenation :
  loaded (demo_load [0; 0] "python" "easy" initial) demo_session
  /\ join [] (user_blocks demo_session)
     = join [] (correct_blocks demo_session)
  /\ Permutation (user_blocks demo_session) (correct_blocks demo_session)
  /\ (check_order demo_session = correct_box -> False).
Proof.
  split; [reflexivity|].
  split; [reflexivity|].
  split.
  - change (user_blocks demo_session)
      with [block_text (repeat (line "n += 1") 4);
            block_text (repeat (line "n += 1") 3)].
    change (correct_blocks demo_session)
      with [block_text (repeat (line "n += 1") 3);
            block_text (repeat (line "n += 1") 4)].
    apply perm_swap.
  - intros H. apply check_order_correct_box in H.
    vm_compute in H. discriminate.
Qed.

(** ** Shuffling and dragging keep the blocks *)

Section Rearrangements.

Context {A : Type}.

Lemma set_item_head_perm (x y : A) (l : list A) (j : nat) :
  nth_error l j = Some y ->
  Permutation (y :: set_item j x l) (x :: l).
Proof.
  revert j; induction l as [|a l IH]; intros [|j] Hj; simpl in *;
    try discriminate.
  - injection Hj as ->. apply perm_swap.
  - rewrite perm_swap. rewrite (IH j Hj). apply perm_swap.
Qed.

Lemma set_item_same (l : list A) (i : nat) (v : A) :
  nth_error l i = Some v -> set_item i v l = l.
Proof.
  revert i; induction l as [|a l IH]; intros [|i] Hi; simpl in *;
    try discriminate.
  - now injection Hi as ->.
  - now rewrite IH.
Qed.

Lemma set_item_twice_perm (l : list A) (i j : nat) (xi xj : A) :
  nth_error l i = Some xi -> nth_error l j = Some xj -> i <> j ->
  Permutation (set_item j xi (set_item i xj l)) l.
Proof.
  revert i j; induction l as [|a l IH]; intros [|i] [|j] Hi Hj Hij;
    simpl in *; try discriminate; try congruence.
  - injection Hi as ->. now apply set_item_head_perm.
  - injection Hj as ->. now apply set_item_head_perm.
  - apply perm_skip. apply IH; auto.
Qed.

Lemma swap_items_perm (i j : nat) (x : list A) :
  Permutation (swap_items i j x) x.
Proof.
  unfold swap_items.
  destruct (nth_error x j) as [xj|] eqn:Hj; [|reflexivity].
  destruct (nth_error x i) as [xi|] eqn:Hi; [|reflexivity].
  destruct (Nat.eq_dec i j) as [->|Hij].
  - assert (xi = xj) by congruence. subst xj.
    rewrite !(set_item_same x j xi Hj). reflexivity.
  - now apply set_item_twice_perm.
Qed.

Lemma shuffle_from_perm (i : nat) (tape : list nat) (x : list A) :
  Permutation (shuffle_from i tape x) x.
Proof.
  revert tape x; induction i as [|i IH]; intros tape x; simpl.
  - reflexivity.
  - rewrite IH. apply swap_items_perm.
Qed.

Lemma random_shuffle_perm (tape : list nat) (x : list A) :
  Permutation (random_shuffle tape x) x.
Proof. apply shuffle_from_perm. Qed.

Lemma move_row_perm (src dst : nat) (rows : list A) :
  Permutation (move_row src dst rows) rows.
Proof.
  unfold move_row.
  destruct (nth_error rows src) as [x|] eqn:Hx; [|reflexivity].
  apply nth_error_split in Hx as [l1 [l2 [-> Hlen]]]. subst src.
  assert (E1 : firstn (length l1) (l1 ++ x :: l2) = l1).
  { rewrite firstn_app, firstn_all, Nat.sub_diag. simpl. apply app_nil_r. }
  assert (E2 : skipn (S (length l1)) (l1 ++ x :: l2) = l2).
  { rewrite skipn_app, skipn_all2 by lia.
    replace (S (length l1) - length l1) with 1 by lia. reflexivity. }
  rewrite E1, E2.
  etransitivity; [symmetry; apply Permutation_middle|].
  rewrite firstn_skipn. apply Permutation_middle.
Qed.

End Rearrangements.

Lemma reorders_correct_order (moves : list (nat * nat)) (s : App) :
  correct_order (reorders moves s) = correct_order s
  /\ code_blocks (reorders moves s) = code_blocks s
  /\ Permutation (list_widget (reorders moves s)) (list_widget s).
Proof.
  revert s; induction moves as [|m moves IH]; intros s; simpl.
  - auto.
  - destruct (IH (reorder (fst m) (snd m) s)) as (H1 & H2 & H3).
    unfold reorders in *. rewrite H1, H2. repeat split.
    rewrite H3. apply move_row_perm.
Qed.

(** ** Loading a puzzle *)

Section Loading.

Variable path_join : str -> list str -> str.
Variable fs : str -> node.
Variable upper : str -> str.

Let load := load_code_by_language_and_difficulty path_join fs upper.
Let folder_of (language difficulty : str) : str :=
  path_join (lit "snippets") [language; difficulty].
Let is_txt (f : str) : bool := endswith f (lit ".txt").

(** What a load that went through has read and stored. *)
Lemma load_inversion tape language difficulty s s' :
  loaded (load tape language difficulty s) s' ->
  exists names text,
    fs (folder_of language difficulty) = Dir names
    /\ nth_error (filter is_txt names)
         (randbelow (hd 0 tape) (length (filter is_txt names)))
       = Some (current_file s')
    /\ fs (path_join (folder_of language difficulty) [current_file s'])
       = File text
    /\ correct_order s' =
       split_into_blocks_by_lines (readlines text) (Some 3%Z)
    /\ code_blocks s' = random_shuffle (tl tape) (correct_order s')
    /\ list_widget s' = map block_text (code_blocks s').
Proof.
  unfold loaded, load, load_code_by_language_and_difficulty.
  fold (folder_of language difficulty). fold is_txt.
  destruct (fs (folder_of language difficulty)) as [|names|] eqn:Hdir;
    try discriminate.
  destruct (truthy (filter is_txt names)); cbn [negb]; try discriminate.
  unfold random_choice.
  destruct (nth_error (filter is_txt names) _) as [f|] eqn:Hf;
    try discriminate.
  destruct (fs (path_join (folder_of language difficulty) [f]))
    as [| |text] eqn:Hfile; try discriminate.
  intros H. injection H as <-. cbn [current_file correct_order code_blocks
                                    list_widget].
  exists names, text. rewrite map_id. auto 7.
Qed.

(** The two failures, as the code reports them. *)
Lemma load_missing_folder tape language difficulty s :
  fs (folder_of language difficulty) = Missing ->
  load tape language difficulty s =
  returned (clear_list s)
    [critical (lit "Помилка")
       (lit "Папка '" ++ folder_of language difficulty
        ++ lit "' не знайдена.")].
Proof.
  intros H. unfold load, load_code_by_language_and_difficulty.
  fold (folder_of language difficulty). now rewrite H.
Qed.

Lemma load_no_candidates tape language difficulty s names :
  fs (folder_of language difficulty) = Dir names ->
  filter is_txt names = [] ->
  load tape language difficulty s =
  returned (clear_list s)
    [critical (lit "Помилка")
       (lit "Немає кодів у папці '" ++ folder_of language difficulty
        ++ lit "'.")].
Proof.
  intros H E. unfold load, load_code_by_language_and_difficulty.
  fold (folder_of language difficulty). fold is_txt. now rewrite H, E.
Qed.

(** After a load that went through, [code_blocks] is a permutation of
    [correct_order] and the rows of the list are the texts of
    [code_blocks]; after any sequence of drags that follows, the canonical
    blocks are unchanged and the rows are still a permutation of their
    texts. *)
Theorem working_is_permutation_of_canonical
  tape language difficulty (s0 s1 : App) (moves : list (nat * nat)) :
  loaded (load tape language difficulty s0) s1 ->
  Permutation (code_blocks s1) (correct_order s1)
  /\ list_widget s1 = map block_text (code_blocks s1)
  /\ correct_order (reorders moves s1) = correct_order s1
  /\ Permutation (user_blocks (reorders moves s1))
       (map block_text (correct_order (reorders moves s1))).
Proof.
  intros Hload.
  destruct (load_inversion _ _ _ _ _ Hload)
    as (names & text & _ & _ & _ & _ & Hshuffle & Hrows).
  assert (Hperm : Permutation (code_blocks s1) (correct_order s1)).
  { rewrite Hshuffle. apply random_shuffle_perm. }
  destruct (reorders_correct_order moves s1) as (Hc & _ & Hw).
  repeat split; auto.
  unfold user_blocks. rewrite Hw, Hc, Hrows.
  now apply Permutation_map.
Qed.

(** C9.  Whatever file a load reads, the canonical blocks are those of the
    fixed-size segmenter called with block size 3; the size derived from
    the number of non-blank lines plays no part, also for a file of more
    than 40 such lines, where it would be 4 or 5. *)
Theorem load_segments_with_block_size_3
  tape language difficulty (s0 s1 : App) :
  loaded (load tape language difficulty s0) s1 ->
  exists text,
    fs (path_join (folder_of language difficulty) [current_file s1])
      = File text
    /\ correct_order s1 =
       split_into_blocks_by_lines (readlines text) (Some 3%Z)
    /\ code_blocks s1 =
       random_shuffle (tl tape)
         (split_into_blocks_by_lines (readlines text) (Some 3%Z))
    /\ ((40 < Z.of_nat (length (filter non_empty (readlines text))))%Z ->
        auto_block_size
          (Z.of_nat (length (filter non_empty (readlines text)))) <> 3%Z).
Proof.
  intros Hload.
  destruct (load_inversion _ _ _ _ _ Hload)
    as (names & text & _ & _ & Hfile & Hcorrect & Hshuffle & _).
  exists text. repeat split; auto.
  - now rewrite Hshuffle, Hcorrect.
  - intros Hlong. unfold auto_block_size.
    destruct (Z.leb_spec
                (Z.of_nat (length (filter non_empty (readlines text)))) 40);
      [lia|].
    destruct (Z.leb_spec
                (Z.of_nat (length (filter non_empty (readlines text)))) 60);
      discriminate.
Qed.

(** C8 (as amended).  The candidates are the entries of the folder whose
    name ends in [.txt]: the file a load picks is always one of them, and
    each of them that can be read is picked for some draw. *)
Theorem candidates_are_the_txt_entries
  language difficulty (names : list str) :
  fs (folder_of language difficulty) = Dir names ->
  (forall tape s0 s1,
     loaded (load tape language difficulty s0) s1 ->
     In (current_file s1) names /\ is_txt (current_file s1) = true)
  /\ (forall f text,
        In f names -> is_txt f = true ->
        fs (path_join (folder_of language difficulty) [f]) = File text ->
        exists draw, forall tape s0,
          exists s1, loaded (load (draw :: tape) language difficulty s0) s1
                     /\ current_file s1 = f).
Proof.
  intros Hdir. split.
  - intros tape s0 s1 Hload.
    destruct (load_inversion _ _ _ _ _ Hload)
      as (names' & text & Hdir' & Hpick & _).
    rewrite Hdir in Hdir'. injection Hdir' as <-.
    apply nth_error_In, filter_In in Hpick. exact Hpick.
  - intros f text Hin Htxt Hfile.
    assert (Hf : In f (filter is_txt names)) by (apply filter_In; auto).
    apply In_nth_error in Hf as [draw Hdraw].
    assert (Hlt : draw < length (filter is_txt names)).
    { apply nth_error_Some. congruence. }
    exists draw. intros tape s0.
    unfold loaded, load, load_code_by_language_and_difficulty.
    fold (folder_of language difficulty). fold is_txt. rewrite Hdir.
    destruct (filter is_txt names) as [|f0 files] eqn:Hfiles;
      [simpl in Hlt; lia|].
    cbn [truthy negb hd]. unfold random_choice, randbelow.
    rewrite Nat.mod_small by exact Hlt.
    rewrite Hdraw, Hfile. eexists. split; reflexivity.
Qed.

End Loading.

(** The demo session, after its load and after two drags. *)
Lemma working_is_permutation_example :
  loaded (demo_load [0; 0] "python" "easy" initial) demo_session
  /\ Permutation (code_blocks demo_session) (correct_order demo_session)
  /\ Permutation (user_blocks (reorders [(0, 1); (1, 0)] demo_session))
       (map block_text
          (correct_order (reorders [(0, 1); (1, 0)] demo_session))).
Proof.
  assert (H : loaded (demo_load [0; 0] "python" "easy" initial) demo_session)
    by reflexivity.
  split; [exact H|].
  destruct (working_is_permutation_of_canonical
              posix_join demo_fs ascii_upper [0; 0]
              (lit "python") (lit "easy") initial demo_session
              [(0, 1); (1, 0)] H) as (H1 & _ & _ & H4).
  split; [exact H1 | exact H4].
Defined.

(** The demo session holds the blocks of size 3 of its file. *)
Lemma load_segments_with_block_size_3_example :
  loaded (demo_load [0; 0] "python" "easy" initial) demo_session
  /\ exists text,
       correct_order demo_session =
       split_into_blocks_by_lines (readlines text) (Some 3%Z).
Proof.
  assert (H : loaded (demo_load [0; 0] "python" "easy" initial) demo_session)
    by reflexivity.
  split; [exact H|].
  destruct (load_segments_with_block_size_3
              posix_join demo_fs ascii_upper [0; 0]
              (lit "python") (lit "easy") initial demo_session H)
    as (text & _ & Hc & _).
  exists text. exact Hc.
Defined.

(** In [snippets/python/easy], [count.py.txt] is picked for some draw. *)
Lemma candidates_are_the_txt_entries_example :
  demo_fs (posix_join (lit "snippets") [lit "python"; lit "easy"])
    = Dir [lit "notes.md"; lit "count.py.txt"]
  /\ exists draw, forall tape s0,
       exists s1, loaded (demo_load (draw :: tape) "python" "easy" s0) s1
                  /\ current_file s1 = lit "count.py.txt".
Proof.
  assert (H : demo_fs (posix_join (lit "snippets") [lit "python"; lit "easy"])
              = Dir [lit "notes.md"; lit "count.py.txt"]) by reflexivity.
  split; [exact H|].
  apply (proj2 (candidates_are_the_txt_entries
                  posix_join demo_fs ascii_upper
                  (lit "python") (lit "easy")
                  [lit "notes.md"; lit "count.py.txt"] H)
           (lit "count.py.txt") (concat (repeat (line "n += 1") 7))).
  - right. left. reflexivity.
  - reflexivity.
  - reflexivity.
Defined.

(** C8, counterexample.  [snippets/cpp/easy] holds the file [README.md],
    and a load from it reports that the folder has no code; and from
    [snippets/python/easy], which holds [notes.md] and a puzzle, no draw
    picks [notes.md]. *)
Lemma entry_without_txt_is_not_a_candidate :
  demo_fs (lit "snippets/cpp/easy") = Dir [lit "README.md"]
  /\ demo_load [0; 0] "cpp" "easy" initial =
     returned (clear_list initial)
       [critical (lit "Помилка")
          (lit "Немає кодів у папці 'snippets/cpp/easy'.")]
  /\ demo_fs (lit "snippets/python/easy")
     = Dir [lit "notes.md"; lit "count.py.txt"]
  /\ (forall tape s0 s1,
        loaded (demo_load tape "python" "easy" s0) s1 ->
        current_file s1 <> lit "notes.md").
Proof.
  split; [reflexivity|]. split; [reflexivity|]. split; [reflexivity|].
  intros tape s0 s1 Hload Hname.
  destruct (load_inversion posix_join demo_fs ascii_upper
              tape (lit "python") (lit "easy") s0 s1 Hload)
    as (names & text & Hdir & Hpick & _).
  change (Dir [lit "notes.md"; lit "count.py.txt"] = Dir names) in Hdir.
  injection Hdir as <-. rewrite Hname in Hpick.
  apply nth_error_In in Hpick.
  vm_compute in Hpick. destruct Hpick as [E|[]]. discriminate E.
Qed.

(** C6, the failing input.  With a solved puzzle on screen, a load from a
    folder that does not exist, or from one without a [.txt] file, shows
    an error box of its own and returns; [correct_order], [code_blocks] and
    [current_file] keep their values, but the rows of the list, which are
    the arrangement the user works on and [check_order] reads, are gone. *)
Theorem failed_load_empties_the_list :
  check_order demo_solved = correct_box
  /\ demo_load [] "cpp" "hard" demo_solved =
     returned (clear_list demo_solved)
       [critical (lit "Помилка")
          (lit "Папка 'snippets/cpp/hard' не знайдена.")]
  /\ demo_load [] "cpp" "easy" demo_solved =
     returned (clear_list demo_solved)
       [critical (lit "Помилка")
          (lit "Немає кодів у папці 'snippets/cpp/easy'.")]
  /\ correct_order (clear_list demo_solved) = correct_order demo_solved
  /\ code_blocks (clear_list demo_solved) = code_blocks demo_solved
  /\ current_file (clear_list demo_solved) = current_file demo_solved
  /\ length (list_widget demo_solved) = 2
  /\ list_widget (clear_list demo_solved) = []
  /\ check_order (clear_list demo_solved) <> correct_box.
Proof.
  split; [reflexivity|].
  split.
  { unfold demo_load. rewrite load_missing_folder by reflexivity.
    reflexivity. }
  split.
  { unfold demo_load.
    rewrite (load_no_candidates posix_join demo_fs ascii_upper []
               (lit "cpp") (lit "easy") demo_solved [lit "README.md"])
      by reflexivity.
    reflexivity. }
  repeat (split; [reflexivity|]).
  intros H. apply check_order_correct_box in H.
  vm_compute in H. discriminate.
Qed.

(** ** Running the reassembled code *)

Lemma readlines_go_terminated (cur text : str) :
  Forall ends_nl (removelast (readlines_go cur text)).
Proof.
  revert cur; induction text as [|c text IH]; intros cur; simpl.
  - destruct cur; constructor.
  - destruct (N.eqb_spec c nl) as [->|_]; [|apply IH].
    specialize (IH []).
    destruct (readlines_go [] text); constructor; auto.
    now exists cur.
Qed.

Lemma removelast_filter_Forall {A} (P : A -> Prop) (p : A -> bool)
  (l : list A) :
  Forall P (removelast l) -> Forall P (removelast (filter p l)).
Proof.
  induction l as [|a l IH]; intros H; [constructor|].
  destruct l as [|b l].
  - simpl. destruct (p a); constructor.
  - change (removelast (a :: b :: l)) with (a :: removelast (b :: l)) in H.
    inversion H as [|? ? Ha Hl]; subst.
    specialize (IH Hl). cbn [filter]. destruct (p a); [|exact IH].
    cbn [filter] in *.
    destruct (if p b then b :: filter p l else filter p l); constructor; auto.
Qed.

Lemma blocks_loop_nonempty block_size lines (blocks : list block)
  (current_block : block) :
  Forall (fun b : block => b <> []) blocks ->
  Forall (fun b : block => b <> [])
    (fst (fold_left (blocks_step block_size) lines (blocks, current_block))).
Proof.
  revert blocks current_block.
  induction lines as [|line lines IH]; intros blocks current_block H;
    [exact H|].
  cbn [fold_left]. unfold blocks_step at 2.
  destruct (non_empty line); cbn [negb]; [|now apply IH].
  destruct (Z.of_nat (length (current_block ++ [line])) =? block_size)%Z;
    apply IH; auto.
  apply Forall_app. split; auto. constructor; auto.
  now destruct current_block.
Qed.

Lemma split_blocks_nonempty lines block_size :
  Forall (fun b : block => b <> [])
    (split_into_blocks_by_lines lines block_size).
Proof.
  unfold split_into_blocks_by_lines. cbv zeta.
  match goal with |- context [fold_left (blocks_step ?size) ?l ?i] =>
    pose proof (blocks_loop_nonempty size lines [] [] (Forall_nil _)) as H;
    change (Forall (fun x : block => x <> [])
              (fst (fold_left (blocks_step size) l i))) in H;
    revert H;
    destruct (fold_left (blocks_step size) l i) as [blocks cur]
  end.
  cbn [fst]. intros H.
  destruct cur as [|c cur]; cbn [truthy]; auto.
  destruct blocks as [|b blocks]; cbn [truthy].
  - repeat constructor. discriminate.
  - unfold extend_last. apply Forall_app. split.
    + rewrite (app_removelast_last [] (l := b :: blocks)) in H
        by discriminate.
      apply Forall_app in H. tauto.
    + repeat constructor. intros E. apply app_eq_nil in E as [_ E].
      discriminate.
Qed.

Lemma concat_map_block_text (bs : list block) :
  concat (map block_text bs) = concat (concat bs).
Proof.
  induction bs as [|b bs IH]; simpl; auto.
  unfold block_text at 1. now rewrite join_empty_sep, concat_app, IH.
Qed.

Lemma join_app_cons (sep : str) (pre : list str) (x : str)
  (rest : list str) :
  join sep (pre ++ x :: rest) =
  concat (map (fun r => r ++ sep) pre) ++ join sep (x :: rest).
Proof.
  induction pre as [|a pre IH]; [reflexivity|].
  cbn [map concat]. rewrite <- !app_assoc, <- IH.
  destruct pre; reflexivity.
Qed.

(** In the canonical order of a file's blocks, the text of every block
    that is followed by another one ends with a line feed. *)
Lemma block_before_another_ends_nl text block_size
  (before : list block) (b next : block) (after : list block) :
  split_into_blocks_by_lines (readlines text) block_size =
    before ++ b :: next :: after ->
  ends_nl (block_text b).
Proof.
  intros Hsplit.
  pose proof (split_blocks_nonempty (readlines text) block_size) as Hne.
  pose proof (split_concat (readlines text) block_size) as Hcat.
  pose proof (removelast_filter_Forall ends_nl non_empty (readlines text)
                (readlines_go_terminated [] text)) as Hnl.
  rewrite Hsplit in Hne, Hcat. rewrite <- Hcat in Hnl.
  apply Forall_app in Hne as [_ Hne].
  inversion Hne as [|? ? Hb Hne']; subst.
  inversion Hne' as [|? ? Hnext _]; subst.
  destruct (exists_last Hb) as [b' [l Eb]]. subst b.
  assert (E : concat (before ++ (b' ++ [l]) :: next :: after) =
              (concat before ++ b' ++ [l]) ++ (next ++ concat after)).
  { rewrite concat_app. simpl. now rewrite <- !app_assoc. }
  assert (Hnl' : Forall ends_nl
                   (removelast ((concat before ++ b' ++ [l])
                                ++ (next ++ concat after))))
    by (rewrite <- E; exact Hnl).
  clear Hnl. rename Hnl' into Hnl.
  rewrite removelast_app in Hnl.
  - apply Forall_app in Hnl as [Hnl _].
    apply Forall_app in Hnl as [_ Hnl].
    apply Forall_app in Hnl as [_ Hnl].
    inversion Hnl as [|? ? [l' ->] _]; subst.
    exists (concat b' ++ l').
    unfold block_text. rewrite join_empty_sep, concat_app. simpl.
    now rewrite app_nil_r, app_assoc.
  - intros E'. apply app_eq_nil in E' as [E' _]. congruence.
Qed.

Section Running.

Variable platform_system : str.
Variable timestamp : Z.
Variable write_file : str -> str -> option str.
Variable subprocess_run : list str -> str + (Z * str * str).
Variable subprocess_popen : list str -> option str.

Let run_cpp := _run_cpp_code write_file subprocess_run subprocess_popen.
Let run_python :=
  _run_python_code platform_system write_file subprocess_popen.
Let run :=
  run_code platform_system timestamp write_file subprocess_run
    subprocess_popen.

(** C7 (as amended).  When the temporary source was written and the
    compiler returns a non-zero code, [_run_cpp_code] writes the source,
    runs the compiler and calls [show_output_window] with an empty output
    and the compiler's diagnostics, as they are, as the errors; nothing is
    launched, whatever launching would have done; and diagnostics that are
    not empty are shown under the error heading, followed by an empty
    output. *)
Theorem compile_failure_shows_diagnostics_and_launches_nothing
  (code : str) (ts returncode : Z) (stdout stderr : str) :
  write_file (cpp_file_of ts) (cpp_code_of code) = None ->
  subprocess_run [lit "g++"; cpp_file_of ts; lit "-o"; exe_file_of ts]
    = inr (returncode, stdout, stderr) ->
  returncode <> 0%Z ->
  run_cpp code ts =
    [file_written (cpp_file_of ts) (cpp_code_of code);
     compiler_run [lit "g++"; cpp_file_of ts; lit "-o"; exe_file_of ts];
     show_output_window [] stderr]
  /\ (forall argv, ~ In (process_spawned argv) (run_cpp code ts))
  /\ (stderr <> [] ->
      show_output_window [] stderr =
      window_shown (lit "❗ ПОМИЛКИ:" ++ [nl] ++ stderr ++ [nl; nl]
                    ++ lit "---" ++ [nl] ++ lit "🔽 Вивід:" ++ [nl] ++ [])).
Proof.
  intros Hwrite Hrun Hcode.
  assert (E : run_cpp code ts =
    [file_written (cpp_file_of ts) (cpp_code_of code);
     compiler_run [lit "g++"; cpp_file_of ts; lit "-o"; exe_file_of ts];
     show_output_window [] stderr]).
  { unfold run_cpp, _run_cpp_code. cbv zeta. rewrite Hwrite, Hrun.
    destruct (Z.eqb_spec returncode 0); [contradiction|reflexivity]. }
  split; [exact E|]. split.
  - intros argv Hin. rewrite E in Hin.
    destruct Hin as [H|[H|[H|[]]]]; try discriminate H.
    unfold show_output_window in H.
    destruct (truthy stderr); discriminate H.
  - intros Hne. unfold show_output_window.
    destruct stderr; [congruence|reflexivity].
Qed.

(** C10.  For a puzzle of at least two blocks cut from a file and put back
    in order, the code [run_code] passes on is the rows joined with a line
    feed.  It is longer than the non-blank lines of the file put end to
    end, by one character per boundary, hence different from that text;
    and at every boundary the earlier row already ends with a line feed,
    so the code has an empty line there. *)
Theorem run_code_joins_rows_with_line_feeds (s : App) (text : str) :
  correct_order s = split_into_blocks_by_lines (readlines text) (Some 3%Z) ->
  2 <= length (correct_order s) ->
  check_order s = correct_box ->
  run s =
    (if endswith (current_file s) (lit ".py.txt")
     then run_python (join [nl] (user_blocks s)) timestamp
     else if endswith (current_file s) (lit ".cpp.txt")
     then run_cpp (join [nl] (user_blocks s)) timestamp
     else [])
  /\ length (join [nl] (user_blocks s)) =
     length (join [] (filter non_empty (readlines text)))
     + (length (correct_order s) - 1)
  /\ join [nl] (user_blocks s)
     <> join [] (filter non_empty (readlines text))
  /\ (forall pre x y post,
        user_blocks s = pre ++ x :: y :: post ->
        exists x',
          x = x' ++ [nl]
          /\ join [nl] (user_blocks s) =
             concat (map (fun r => r ++ [nl]) pre)
             ++ x' ++ [nl; nl] ++ join [nl] (y :: post)).
Proof.
  intros Hfile Hmulti Hok.
  apply check_order_correct_box in Hok.
  pose proof (proj1 (blocks_eqb_eq _ _) Hok) as Hrows.
  unfold correct_blocks in Hrows.
  assert (Hlen : length (join [nl] (user_blocks s)) =
                 length (join [] (filter non_empty (readlines text)))
                 + (length (correct_order s) - 1)).
  { rewrite length_join_newline.
    - rewrite Hrows, length_map, concat_map_block_text, Hfile, split_concat.
      now rewrite join_empty_sep.
    - rewrite Hrows. destruct (correct_order s); simpl in *; [lia|].
      discriminate. }
  split; [|split; [exact Hlen|split]].
  - unfold run, run_code. now rewrite Hok.
  - intros E. rewrite E in Hlen. lia.
  - intros pre x y post Hsplit.
    rewrite Hrows in Hsplit.
    apply map_eq_app in Hsplit as (cpre & crest & Hc & <- & Hrest).
    destruct crest as [|bx [|next cpost]]; try discriminate Hrest.
    injection Hrest as <- <- <-.
    rewrite Hfile in Hc.
    destruct (block_before_another_ends_nl _ _ _ _ _ _ Hc) as [x' Hx].
    exists x'. split; [exact Hx|].
    rewrite Hrows, Hfile, Hc, map_app. cbn [map].
    rewrite join_app_cons, join_cons2, Hx.
    now rewrite <- !app_assoc.
Qed.

End Running.

(** A compiler that exits with code 1 and one line of diagnostics. *)
Lemma compile_failure_example :
  (1 <> 0)%Z
  /\ _run_cpp_code (fun _ _ => None)
       (fun _ => inr (1%Z, [], lit "main.cpp:1:1: error"))
       (fun _ => None) (lit "int main() { return 0 }") 1700000000%Z =
     [file_written (cpp_file_of 1700000000)
        (cpp_code_of (lit "int main() { return 0 }"));
      compiler_run [lit "g++"; cpp_file_of 1700000000; lit "-o";
                    exe_file_of 1700000000];
      show_output_window [] (lit "main.cpp:1:1: error")].
Proof.
  assert (H : (1 <> 0)%Z) by discriminate.
  split; [exact H|].
  exact (proj1 (compile_failure_shows_diagnostics_and_launches_nothing
                  (fun _ _ => None)
                  (fun _ => inr (1%Z, [], lit "main.cpp:1:1: error"))
                  (fun _ => None)
                  (lit "int main() { return 0 }") 1700000000%Z 1%Z []
                  (lit "main.cpp:1:1: error") eq_refl eq_refl H)).
Defined.

(** The solved demo session: the code passed on is not the file's text. *)
Lemma run_code_joins_rows_example :
  (correct_order demo_solved =
     split_into_blocks_by_lines
       (readlines (concat (repeat (line "n += 1") 7))) (Some 3%Z)
   /\ 2 <= length (correct_order demo_solved)
   /\ check_order demo_solved = correct_box)
  /\ join [nl] (user_blocks demo_solved)
     <> join [] (filter non_empty
                   (readlines (concat (repeat (line "n += 1") 7)))).
Proof.
  assert (H1 : correct_order demo_solved =
               split_into_blocks_by_lines
                 (readlines (concat (repeat (line "n += 1") 7)))
                 (Some 3%Z)) by reflexivity.
  assert (H2 : 2 <= length (correct_order demo_solved))
    by (apply le_n).
  assert (H3 : check_order demo_solved = correct_box) by reflexivity.
  split; [now repeat split|].
  destruct (run_code_joins_rows_with_line_feeds
              (lit "Windows") 1700000000%Z (fun _ _ => None)
              (fun _ => inl []) (fun _ => None)
              demo_solved (concat (repeat (line "n += 1") 7)) H1 H2 H3)
    as (_ & _ & Hdiff & _).
  exact Hdiff.
Defined.

(** ** Logical blocks *)

Lemma logical_blocks_from_cons (line : str) (rest : list str) :
  logical_blocks_from (line :: rest) =
  if non_empty line then
    if opens_block line then
      (line :: fst (take_body (get_indent line) rest))
        :: logical_blocks_from (snd (take_body (get_indent line) rest))
    else [line] :: logical_blocks_from rest
  else logical_blocks_from rest.
Proof.
  simp logical_blocks_from.
  destruct (non_empty line); simpl; [|reflexivity].
  destruct (opens_block line); reflexivity.
Qed.

(** A run of body lines is taken whole, and the loop goes on after it. *)
Lemma take_body_app_run (indent : nat) (run rest : list str) :
  forallb (in_body indent) run = true ->
  take_body indent (run ++ rest) =
  (run ++ fst (take_body indent rest), snd (take_body indent rest)).
Proof.
  induction run as [|l run IH]; intros H; simpl.
  - now destruct (take_body indent rest).
  - simpl in H. apply andb_true_iff in H as [Hl H].
    rewrite Hl, (IH H). reflexivity.
Qed.

Lemma take_body_stop (indent : nat) (x : str) (rest : list str) :
  in_body indent x = false ->
  take_body indent (x :: rest) = ([], x :: rest).
Proof. intros H. simpl. now rewrite H. Qed.

(** The lines before the first one that is not a body line. *)
Lemma body_prefix (indent : nat) (ls : list str) :
  forallb (in_body indent) ls = true
  \/ exists run x tail,
       ls = run ++ x :: tail
       /\ forallb (in_body indent) run = true
       /\ in_body indent x = false.
Proof.
  induction ls as [|l ls IH]; [now left|].
  destruct (in_body indent l) eqn:Hl.
  - destruct IH as [H|(run & x & tail & -> & Hrun & Hx)].
    + left. simpl. now rewrite Hl.
    + right. exists (l :: run), x, tail. simpl. rewrite Hl. auto.
  - right. exists [], l, ls. auto.
Qed.

Lemma in_body_deeper (indent : nat) (line : str) :
  non_empty line = true -> in_body indent line = true ->
  indent < get_indent line.
Proof.
  unfold non_empty, in_body. intros Hne H.
  destruct (strip line); [discriminate|]. simpl in H.
  now apply Nat.ltb_lt.
Qed.

Lemma in_body_mono (outer inner : nat) (line : str) :
  outer <= inner -> in_body inner line = true -> in_body outer line = true.
Proof.
  unfold in_body. intros Hle H.
  apply orb_true_iff in H as [H|H]; apply orb_true_iff; [now left|right].
  apply Nat.ltb_lt in H. apply Nat.ltb_lt. lia.
Qed.

Lemma opens_block_non_empty (line : str) :
  opens_block line = true -> non_empty line = true.
Proof.
  unfold opens_block, non_empty. intros H.
  destruct (strip line); [|reflexivity].
  vm_compute in H. discriminate.
Qed.

(** Where the scan stands when it has passed [before]: either it is about
    to read [rest], or it is inside the block of a header of [before],
    which has taken every line since. *)
Lemma scan_reaches (n : nat) : forall (before rest : list str),
  length before <= n ->
  (exists blocks1,
     logical_blocks_from (before ++ rest) =
       blocks1 ++ logical_blocks_from rest
     /\ filter non_empty (concat blocks1) = filter non_empty before)
  \/ (exists before0 h run blocks1,
        before = before0 ++ h :: run
        /\ opens_block h = true
        /\ forallb (in_body (get_indent h)) run = true
        /\ logical_blocks_from (before ++ rest) =
             blocks1
             ++ (h :: run ++ fst (take_body (get_indent h) rest))
             :: logical_blocks_from (snd (take_body (get_indent h) rest))
        /\ filter non_empty (concat blocks1) = filter non_empty before0).
Proof.
  induction n as [|n IH]; intros before rest Hlen.
  - destruct before; [|simpl in Hlen; lia].
    left. exists []. auto.
  - destruct before as [|line before]; [left; exists []; auto|].
    simpl in Hlen. cbn [app]. rewrite logical_blocks_from_cons.
    destruct (non_empty line) eqn:Hne.
    + destruct (opens_block line) eqn:Hopen.
      * destruct (body_prefix (get_indent line) before)
          as [Hall|(run & x & tail & -> & Hrun & Hx)].
        -- right. exists [], line, before, [].
           rewrite (take_body_app_run _ _ _ Hall). cbn [fst snd app].
           auto 6.
        -- rewrite <- app_assoc. cbn [app].
           rewrite (take_body_app_run _ _ (x :: tail ++ rest) Hrun).
           rewrite (take_body_stop _ _ _ Hx). cbn [fst snd].
           rewrite app_nil_r.
           assert (Hshort : length (x :: tail) <= n).
           { rewrite length_app in Hlen. simpl in *. lia. }
           destruct (IH (x :: tail) rest Hshort)
             as [(bs & Hbs & Hf)
                |(b0 & h & run' & bs & Hb & Hh & Hrun' & Hbs & Hf)].
           ++ left. exists ((line :: run) :: bs). split.
              ** cbn [app] in Hbs. now rewrite Hbs.
              ** cbn [concat]. rewrite !filter_app, Hf.
                 change (line :: run ++ x :: tail)
                   with ((line :: run) ++ x :: tail).
                 now rewrite filter_app.
           ++ right. exists (line :: run ++ b0), h, run', ((line :: run) :: bs).
              repeat split; auto.
              ** rewrite Hb. cbn [app]. now rewrite <- app_assoc.
              ** cbn [app] in Hbs. now rewrite Hbs.
              ** cbn [concat].
                 change (line :: run ++ b0) with ((line :: run) ++ b0).
                 now rewrite !filter_app, Hf.
      * assert (Hshort : length before <= n) by lia.
        destruct (IH before rest Hshort)
          as [(bs & Hbs & Hf)
             |(b0 & h & run' & bs & Hb & Hh & Hrun' & Hbs & Hf)].
        -- left. exists ([line] :: bs). split.
           ++ now rewrite Hbs.
           ++ cbn [concat app filter]. now rewrite Hne, Hf.
        -- right. exists (line :: b0), h, run', ([line] :: bs).
           repeat split; auto.
           ++ now rewrite Hb.
           ++ now rewrite Hbs.
           ++ cbn [concat app filter]. now rewrite Hne, Hf.
    + assert (Hshort : length before <= n) by lia.
      destruct (IH before rest Hshort)
        as [(bs & Hbs & Hf)
           |(b0 & h & run' & bs & Hb & Hh & Hrun' & Hbs & Hf)].
      * left. exists bs. split; auto.
        cbn [filter]. now rewrite Hne.
      * right. exists (line :: b0), h, run', bs.
        repeat split; auto.
        -- now rewrite Hb.
        -- cbn [filter]. now rewrite Hne.
Qed.

(** The logical strategy, in the tests of the program: a line that opens
    a block is in one block with the lines that follow it for as long as
    they pass [in_body]; a non-blank line that opens no block and lies in
    no block opened before it is a block of its own. *)
Theorem logical_block_is_atomic :
  (forall (before : list str) (header : str) (body after : list str),
     opens_block header = true ->
     forallb (in_body (get_indent header)) body = true ->
     exists blocks1 pre post blocks2,
       split_into_logical_blocks (before ++ header :: body ++ after) =
         blocks1 ++ (pre ++ header :: body ++ post) :: blocks2
       /\ filter non_empty (concat blocks1 ++ pre) =
          filter non_empty before)
  /\ (forall (before : list str) (single : str) (after : list str),
        non_empty single = true ->
        opens_block single = false ->
        ~ inside_block before single ->
        exists blocks1 blocks2,
          split_into_logical_blocks (before ++ single :: after) =
            blocks1 ++ [single] :: blocks2
          /\ filter non_empty (concat blocks1) = filter non_empty before).
Proof.
  unfold split_into_logical_blocks. split.
  - intros before header body after Hopen Hbody.
    pose proof (opens_block_non_empty header Hopen) as Hne.
    assert (Hhere :
      logical_blocks_from (header :: body ++ after) =
      (header :: body ++ fst (take_body (get_indent header) after))
      :: logical_blocks_from (snd (take_body (get_indent header) after))).
    { rewrite logical_blocks_from_cons, Hne, Hopen.
      now rewrite (take_body_app_run _ _ _ Hbody). }
    destruct (scan_reaches (length before) before
                (header :: body ++ after) (le_n _))
      as [(bs & Hbs & Hf)
         |(b0 & h & run & bs & Hb & Hh & Hrun & Hbs & Hf)].
    + exists bs, [], (fst (take_body (get_indent header) after)),
        (logical_blocks_from (snd (take_body (get_indent header) after))).
      rewrite Hbs, Hhere, app_nil_r. auto.
    + destruct (in_body (get_indent h) header) eqn:Hin.
      * pose proof (in_body_deeper _ _ Hne Hin) as Hdeep.
        assert (Hbody' : forallb (in_body (get_indent h)) (header :: body)
                         = true).
        { cbn [forallb]. rewrite Hin. cbn [andb].
          apply forallb_forall. intros l Hl.
          apply (in_body_mono (get_indent h) (get_indent header));
            [lia|].
          now apply (proj1 (forallb_forall _ _) Hbody). }
        pose proof (take_body_app_run (get_indent h) (header :: body)
                      after Hbody') as Htake.
        cbn [app] in Htake. rewrite Htake in Hbs. cbn [fst snd] in Hbs.
        exists bs, (h :: run), (fst (take_body (get_indent h) after)),
          (logical_blocks_from (snd (take_body (get_indent h) after))).
        split.
        -- rewrite Hbs. reflexivity.
        -- rewrite Hb, !filter_app, Hf. reflexivity.
      * rewrite (take_body_stop _ _ _ Hin) in Hbs. cbn [fst snd] in Hbs.
        rewrite app_nil_r, Hhere in Hbs.
        exists (bs ++ [h :: run]), [],
          (fst (take_body (get_indent header) after)),
          (logical_blocks_from (snd (take_body (get_indent header) after))).
        split.
        -- rewrite Hbs, <- app_assoc. reflexivity.
        -- rewrite app_nil_r, concat_app. cbn [concat].
           rewrite app_nil_r, Hb, !filter_app, Hf. reflexivity.
  - intros before single after Hne Hopen Hout.
    assert (Hhere : logical_blocks_from (single :: after) =
                    [single] :: logical_blocks_from after).
    { now rewrite logical_blocks_from_cons, Hne, Hopen. }
    destruct (scan_reaches (length before) before (single :: after)
                (le_n _))
      as [(bs & Hbs & Hf)
         |(b0 & h & run & bs & Hb & Hh & Hrun & Hbs & Hf)].
    + exists bs, (logical_blocks_from after). rewrite Hbs, Hhere. auto.
    + destruct (in_body (get_indent h) single) eqn:Hin.
      * exfalso. apply Hout. exists b0, h, run.
        repeat split; auto.
        rewrite forallb_app, Hrun. cbn [forallb]. now rewrite Hin.
      * rewrite (take_body_stop _ _ _ Hin) in Hbs. cbn [fst snd] in Hbs.
        rewrite app_nil_r, Hhere in Hbs.
        exists (bs ++ [h :: run]), (logical_blocks_from after).
        split.
        -- rewrite Hbs, <- app_assoc. reflexivity.
        -- rewrite concat_app. cbn [concat].
           rewrite app_nil_r, Hb, !filter_app, Hf. reflexivity.
Qed.

(** The blocks of the short program: the nested header, the blank line and
    the deepest line stay with the outer header. *)
Example logical_blocks_demo :
  split_into_logical_blocks demo_program =
  [[line "total = 0"];
   [line "for x in xs:"; line "    if x:"; line "";
    line "        total += x"];
   [line "print(total)"]].
Proof. vm_compute. reflexivity. Qed.

(** The nested header of the short program and its body. *)
Lemma logical_block_is_atomic_example :
  (opens_block (line "    if x:") = true
   /\ forallb (in_body (get_indent (line "    if x:")))
        [line ""; line "        total += x"] = true)
  /\ (exists blocks1 pre post blocks2,
        split_into_logical_blocks demo_program =
          blocks1
          ++ (pre ++ line "    if x:"
                     :: [line ""; line "        total += x"] ++ post)
          :: blocks2
        /\ filter non_empty (concat blocks1 ++ pre) =
           filter non_empty [line "total = 0"; line "for x in xs:"]).
Proof.
  assert (H1 : opens_block (line "    if x:") = true) by reflexivity.
  assert (H2 : forallb (in_body (get_indent (line "    if x:")))
                 [line ""; line "        total += x"] = true)
    by reflexivity.
  split; [split; [exact H1 | exact H2]|].
  exact (proj1 logical_block_is_atomic
           [line "total = 0"; line "for x in xs:"]
           (line "    if x:")
           [line ""; line "        total += x"]
           [line "print(total)"] H1 H2).
Defined.

(** C7, counterexample.  A compiler that exits with code 1 and writes
    nothing: the error passed on is empty, and the window shows the text of
    a program that ended without output. *)
Lemma silent_compile_failure_has_empty_errors :
  _run_cpp_code (fun _ _ => None) (fun _ => inr (1%Z, [], []))
    (fun _ => None) (lit "int main() { return 0 }") 1700000000%Z =
  [file_written (cpp_file_of 1700000000)
     (cpp_code_of (lit "int main() { return 0 }"));
   compiler_run [lit "g++"; cpp_file_of 1700000000; lit "-o";
                 exe_file_of 1700000000];
   show_output_window [] []]
  /\ show_output_window [] [] =
     window_shown (lit "Програма завершена без виводу.").
Proof.
  split.
  - unfold _run_cpp_code. cbv zeta. reflexivity.
  - reflexivity.
Qed.

(** * Further properties of the code *)

(** ** Fixed-size segmentation: what the blocks hold and how long they are *)

(** Cutting a list in groups of [k]. *)
Lemma chunks_exist {A} (k : nat) : 0 < k -> forall (n : nat) (l : list A),
  length l <= n ->
  exists (cs : list (list A)) (p : list A),
    l = concat cs ++ p
    /\ Forall (fun c => length c = k) cs
    /\ length p < k
    /\ length cs = length l / k.
Proof.
  intros Hk. induction n as [|n IH]; intros l Hn.
  - destruct l; [|simpl in Hn; lia].
    exists [], []. simpl. rewrite Nat.Div0.div_0_l. auto.
  - destruct (Nat.lt_ge_cases (length l) k) as [Hlt|Hge].
    + exists [], l. rewrite Nat.div_small by exact Hlt. auto.
    + destruct (IH (skipn k l)) as (cs & p & Hl & Hall & Hp & Hcs).
      { rewrite length_skipn. lia. }
      exists (firstn k l :: cs), p. repeat split; auto.
      * cbn [concat]. rewrite <- app_assoc, <- Hl. now rewrite firstn_skipn.
      * constructor; auto. rewrite length_firstn. lia.
      * cbn [length]. rewrite Hcs, length_skipn.
        replace (length l) with ((length l - k) + 1 * k) at 2 by lia.
        rewrite Nat.div_add by lia. lia.
Qed.

(** The result of the segmenter, read off a cutting of the non-blank lines
    in groups of [block_size]. *)
Lemma split_of_chunks (lines : list str) (block_size : Z)
  (cs : list block) (p : block) :
  (0 < block_size)%Z ->
  filter non_empty lines = concat cs ++ p ->
  Forall (fun c : block => Z.of_nat (length c) = block_size) cs ->
  (Z.of_nat (length p) < block_size)%Z ->
  split_into_blocks_by_lines lines (Some block_size) =
    if truthy p then
      if truthy cs then removelast cs ++ [last cs [] ++ p] else [p]
    else cs.
Proof.
  intros Hpos Hlines Hall Hlt.
  pose proof (forallb_filter_id non_empty lines) as Hne.
  rewrite Hlines, forallb_app, forallb_concat in Hne.
  apply andb_true_iff in Hne as [Hc Hp].
  unfold split_into_blocks_by_lines. cbv zeta.
  rewrite blocks_loop_filter, Hlines, fold_left_app.
  rewrite (blocks_loop_complete block_size []); auto.
  rewrite blocks_loop_partial; auto.
  simpl app. destruct p as [|l p]; cbn [truthy]; [reflexivity|].
  destruct cs; reflexivity.
Qed.

Lemma truthy_snoc {A} (l : list A) (x : A) : truthy (l ++ [x]) = true.
Proof. destruct l; reflexivity. Qed.

(** Without a non-blank line there is no block. *)
Lemma split_blank_input (lines : list str) (block_size : option Z) :
  existsb non_empty lines = false ->
  split_into_blocks_by_lines lines block_size = [].
Proof.
  intros Hblank.
  pose proof (split_blocks_nonempty lines block_size) as Hne.
  pose proof (split_concat lines block_size) as Hcat.
  assert (Hnone : filter non_empty lines = []).
  { destruct (filter non_empty lines) as [|l ls] eqn:E; [reflexivity|].
    assert (Hin : In l (filter non_empty lines)) by (rewrite E; now left).
    apply filter_In in Hin as [Hin Hl].
    assert (existsb non_empty lines = true)
      by (apply existsb_exists; eauto).
    congruence. }
  rewrite Hnone in Hcat.
  destruct (split_into_blocks_by_lines lines block_size) as [|b bs];
    [reflexivity|].
  inversion Hne as [|? ? Hb _]; subst.
  simpl in Hcat. apply app_eq_nil in Hcat as [Hcat _]. contradiction.
Qed.

(** X1.  Every block of the fixed-size segmenter is non-empty and holds
    only non-blank lines; an input without a non-blank line (the empty
    input too) gives no block at all. *)
Theorem fixed_size_blocks_hold_code_lines (lines : list str)
  (block_size : option Z) :
  Forall (fun b : block => b <> [] /\ forallb non_empty b = true)
    (split_into_blocks_by_lines lines block_size)
  /\ (existsb non_empty lines = false ->
      split_into_blocks_by_lines lines block_size = []).
Proof.
  pose proof (split_blocks_nonempty lines block_size) as Hne.
  pose proof (split_concat lines block_size) as Hcat.
  split; [|apply split_blank_input].
  pose proof (forallb_filter_id non_empty lines) as Hall.
  rewrite <- Hcat, forallb_concat in Hall.
  apply Forall_forall. intros b Hb. split.
  - now apply (proj1 (Forall_forall _ _) Hne).
  - now apply (proj1 (forallb_forall _ _) Hall).
Qed.

(** The number and the lengths of the blocks, for a positive size. *)
Lemma fixed_size_block_lengths_aux (lines : list str) (block_size : Z) :
  (0 < block_size)%Z ->
  (block_size <= Z.of_nat (length (filter non_empty lines)))%Z ->
  Z.of_nat (length (split_into_blocks_by_lines lines (Some block_size))) =
    (Z.of_nat (length (filter non_empty lines)) / block_size)%Z
  /\ Forall (fun b : block => Z.of_nat (length b) = block_size)
       (removelast (split_into_blocks_by_lines lines (Some block_size)))
  /\ (block_size <=
      Z.of_nat
        (length (last (split_into_blocks_by_lines lines (Some block_size))
                   []))
      < 2 * block_size)%Z.
Proof.
  intros Hpos Hge.
  set (k := Z.to_nat block_size).
  assert (Hk : 0 < k) by (unfold k; lia).
  destruct (chunks_exist k Hk _ (filter non_empty lines) (le_n _))
    as (cs & p & Hl & Hall & Hp & Hcs).
  assert (Hall' : Forall (fun c : block => Z.of_nat (length c) = block_size)
                    cs).
  { eapply Forall_impl; [|exact Hall]. simpl. intros c Hc. unfold k in Hc.
    lia. }
  assert (Hquot : Z.of_nat (length cs) =
                  (Z.of_nat (length (filter non_empty lines))
                   / block_size)%Z).
  { rewrite Hcs. unfold k. rewrite Nat2Z.inj_div. f_equal. lia. }
  assert (Hcsne : cs <> []).
  { intros ->. simpl in Hl. rewrite Hl in Hge. unfold k in Hp. lia. }
  rewrite (split_of_chunks lines block_size cs p Hpos Hl Hall')
    by (unfold k in Hp; lia).
  destruct (exists_last Hcsne) as (cs' & c & ->).
  apply Forall_app in Hall' as [Hcs' Hc].
  inversion Hc as [|? ? Hclen _]; subst.
  rewrite truthy_snoc, removelast_last, last_last.
  destruct p as [|l p]; cbn [truthy].
  - rewrite removelast_last, last_last. repeat split; auto; lia.
  - rewrite removelast_last, last_last.
    repeat split; auto.
    + rewrite <- Hquot, !length_app. reflexivity.
    + rewrite length_app. lia.
    + rewrite length_app. unfold k in Hp. lia.
Qed.

(** X2.  With a positive block size and at least that many non-blank
    lines, the number of blocks is the quotient of the two; every block
    but the last has exactly [block_size] lines, and the last has at least
    [block_size] and fewer than twice as many. *)
Theorem fixed_size_block_lengths (lines : list str) (block_size : Z) :
  (0 < block_size)%Z ->
  (block_size <= Z.of_nat (length (filter non_empty lines)))%Z ->
  Z.of_nat (length (split_into_blocks_by_lines lines (Some block_size))) =
    (Z.of_nat (length (filter non_empty lines)) / block_size)%Z
  /\ Forall (fun b : block => Z.of_nat (length b) = block_size)
       (removelast (split_into_blocks_by_lines lines (Some block_size)))
  /\ (block_size <=
      Z.of_nat
        (length (last (split_into_blocks_by_lines lines (Some block_size))
                   []))
      < 2 * block_size)%Z.
Proof.
  intros Hpos Hge.
  destruct (fixed_size_block_lengths_aux lines block_size Hpos Hge)
    as (Hcount & Hinit & Hlast).
  split; [exact Hcount|]. split; [exact Hinit | exact Hlast].
Qed.

(** Seven lines in blocks of 3: two blocks, of 3 and of 4 lines. *)
Lemma fixed_size_block_lengths_example :
  ((0 < 3)%Z
   /\ (3 <= Z.of_nat (length (filter non_empty
                                (repeat (line "n += 1") 7))))%Z)
  /\ Z.of_nat (length (split_into_blocks_by_lines
                         (repeat (line "n += 1") 7) (Some 3%Z))) =
     (Z.of_nat (length (filter non_empty (repeat (line "n += 1") 7))) / 3)%Z.
Proof.
  assert (H1 : (0 < 3)%Z) by reflexivity.
  assert (H2 : (3 <= Z.of_nat (length (filter non_empty
                                         (repeat (line "n += 1") 7))))%Z)
    by (vm_compute; discriminate).
  split; [split; [exact H1 | exact H2]|].
  exact (proj1 (fixed_size_block_lengths
                  (repeat (line "n += 1") 7) 3%Z H1 H2)).
Defined.

(** With a block size that is not positive no block is ever completed. *)
Lemma blocks_loop_never_full block_size (blocks : list block)
  (current_block more : block) :
  (block_size <= 0)%Z ->
  forallb non_empty more = true ->
  fold_left (blocks_step block_size) more (blocks, current_block) =
  (blocks, current_block ++ more).
Proof.
  intros Hbs. revert current_block.
  induction more as [|l more IH]; intros current_block Hne.
  - simpl. now rewrite app_nil_r.
  - simpl in Hne. apply andb_true_iff in Hne as [E Hne].
    cbn [fold_left]. unfold blocks_step at 2. rewrite E. cbn [negb].
    destruct (Z.eqb_spec (Z.of_nat (length (current_block ++ [l])))
                block_size) as [Heq|_].
    + rewrite length_app in Heq. simpl in Heq. lia.
    + rewrite IH by exact Hne. now rewrite <- app_assoc.
Qed.

(** X3.  A block size of zero or less is accepted: the length of the
    current block never equals it, so every non-blank line ends up in one
    single block. *)
Theorem non_positive_block_size_gives_one_block (lines : list str)
  (block_size : Z) :
  (block_size <= 0)%Z ->
  existsb non_empty lines = true ->
  split_into_blocks_by_lines lines (Some block_size) =
    [filter non_empty lines].
Proof.
  intros Hbs Hex.
  unfold split_into_blocks_by_lines. cbv zeta.
  rewrite blocks_loop_filter.
  rewrite (blocks_loop_never_full block_size [] [] _ Hbs)
    by apply forallb_filter_id.
  cbn [app].
  destruct (filter non_empty lines) as [|l ls] eqn:E; [|reflexivity].
  apply existsb_exists in Hex as [x [Hin Hx]].
  assert (Hf : In x (filter non_empty lines)) by (apply filter_In; auto).
  rewrite E in Hf. contradiction.
Qed.

Lemma non_positive_block_size_example :
  ((0 <= 0)%Z /\ existsb non_empty (repeat (line "n += 1") 7) = true)
  /\ split_into_blocks_by_lines (repeat (line "n += 1") 7) (Some 0%Z) =
     [filter non_empty (repeat (line "n += 1") 7)].
Proof.
  assert (H1 : (0 <= 0)%Z) by apply Z.le_refl.
  assert (H2 : existsb non_empty (repeat (line "n += 1") 7) = true)
    by reflexivity.
  split; [split; [exact H1 | exact H2]|].
  exact (non_positive_block_size_gives_one_block
           (repeat (line "n += 1") 7) 0%Z H1 H2).
Defined.

(** X4.  Blank lines play no part in the segmentation: two inputs with the
    same non-blank lines, in the same order, give the same blocks, for a
    given block size and for the derived one. *)
Theorem blank_lines_do_not_change_blocks (lines1 lines2 : list str)
  (block_size : option Z) :
  filter non_empty lines1 = filter non_empty lines2 ->
  split_into_blocks_by_lines lines1 block_size =
  split_into_blocks_by_lines lines2 block_size.
Proof.
  intros H. unfold split_into_blocks_by_lines. cbv zeta.
  rewrite (blocks_loop_filter _ lines1), (blocks_loop_filter _ lines2).
  now rewrite H.
Qed.

Lemma blank_lines_do_not_change_blocks_example :
  filter non_empty [line "a"; line ""; line "b"; line "   "; line "c"]
    = filter non_empty [line "a"; line "b"; line "c"]
  /\ split_into_blocks_by_lines
       [line "a"; line ""; line "b"; line "   "; line "c"] (Some 2%Z) =
     split_into_blocks_by_lines [line "a"; line "b"; line "c"] (Some 2%Z).
Proof.
  assert (H : filter non_empty
                [line "a"; line ""; line "b"; line "   "; line "c"]
              = filter non_empty [line "a"; line "b"; line "c"])
    by reflexivity.
  split; [exact H|].
  exact (blank_lines_do_not_change_blocks _ _ (Some 2%Z) H).
Defined.

(** X5.  With no block size given and at least three non-blank lines, the
    derived size is 3 up to 40 lines, 4 up to 60 and 5 beyond; every block
    has at least that many lines and fewer than twice as many, and a file
    of at most 60 non-blank lines gives at most 15 blocks. *)
Theorem derived_block_size_bounds (lines : list str) :
  (3 <= Z.of_nat (length (filter non_empty lines)))%Z ->
  let n := Z.of_nat (length (filter non_empty lines)) in
  let size := auto_block_size n in
  size = (if (n <=? 40)%Z then 3 else if (n <=? 60)%Z then 4 else 5)%Z
  /\ Forall (fun b : block => (size <= Z.of_nat (length b) < 2 * size)%Z)
       (split_into_blocks_by_lines lines None)
  /\ Z.of_nat (length (split_into_blocks_by_lines lines None)) =
     (n / size)%Z
  /\ ((n <= 60)%Z ->
      (Z.of_nat (length (split_into_blocks_by_lines lines None)) <= 15)%Z).
Proof.
  intros Hn n size.
  assert (Hsize : (0 < size <= n)%Z).
  { unfold size, auto_block_size.
    destruct (Z.leb_spec n 40); [fold n in Hn; lia|].
    destruct (Z.leb_spec n 60); lia. }
  assert (Hnone : split_into_blocks_by_lines lines None =
                  split_into_blocks_by_lines lines (Some size))
    by reflexivity.
  destruct (fixed_size_block_lengths_aux lines size (proj1 Hsize)
              (proj2 Hsize)) as (Hcount & Hinit & Hlast).
  rewrite Hnone. split; [reflexivity|].
  assert (Hauto : size = if (n <=? 40)%Z then 3%Z
                         else if (n <=? 60)%Z then 4%Z else 5%Z)
    by reflexivity.
  fold n in Hcount. clearbody size n. split; [|split].
  - assert (Hnil : split_into_blocks_by_lines lines (Some size) <> []).
    { intros E. rewrite E in Hcount. cbn [length] in Hcount.
      assert (1 <= n / size)%Z by (apply Z.div_le_lower_bound; lia).
      lia. }
    rewrite (app_removelast_last [] Hnil). apply Forall_app. split.
    + eapply Forall_impl; [|exact Hinit].
      intros c Hc. cbv beta in Hc. rewrite Hc. lia.
    + constructor; [exact Hlast|constructor].
  - exact Hcount.
  - intros H60. rewrite Hcount, Hauto.
    destruct (Z.leb_spec n 40).
    + apply Z.div_le_upper_bound; lia.
    + destruct (Z.leb_spec n 60); [|lia].
      apply Z.div_le_upper_bound; lia.
Qed.

Lemma derived_block_size_bounds_example :
  (3 <= Z.of_nat (length (filter non_empty (repeat (line "n += 1") 7))))%Z
  /\ Forall (fun b : block => (3 <= Z.of_nat (length b) < 2 * 3)%Z)
       (split_into_blocks_by_lines (repeat (line "n += 1") 7) None).
Proof.
  assert (H : (3 <= Z.of_nat (length (filter non_empty
                                        (repeat (line "n += 1") 7))))%Z)
    by (vm_compute; discriminate).
  split; [exact H|].
  exact (proj1 (proj2 (derived_block_size_bounds
                         (repeat (line "n += 1") 7) H))).
Defined.

(** ** Logical blocks: what the scan keeps and the shape of its blocks *)

(** X6.  The logical strategy loses, repeats and moves no line of code:
    the non-blank lines of the blocks, read in order, are the non-blank
    lines of the input; an input without a non-blank line gives no
    block. *)
Theorem logical_blocks_keep_code_lines (lines : list str) :
  filter non_empty (concat (split_into_logical_blocks lines)) =
    filter non_empty lines
  /\ (existsb non_empty lines = false ->
      split_into_logical_blocks lines = []).
Proof.
  unfold split_into_logical_blocks. split.
  - destruct (scan_reaches (length lines) lines [] (le_n _))
      as [(bs & Hbs & Hf)
         |(b0 & h & run & bs & Hb & Hh & Hrun & Hbs & Hf)].
    + rewrite app_nil_r in Hbs. rewrite Hbs.
      simp logical_blocks_from. now rewrite app_nil_r.
    + rewrite app_nil_r in Hbs. rewrite Hbs. cbn [take_body fst snd].
      simp logical_blocks_from. rewrite concat_app. cbn [concat].
      rewrite !app_nil_r, Hb, !filter_app, Hf. reflexivity.
  - induction lines as [|l lines IH]; intros Hblank.
    + now simp logical_blocks_from.
    + simpl in Hblank. apply orb_false_iff in Hblank as [Hl Hrest].
      rewrite logical_blocks_from_cons, Hl. now apply IH.
Qed.

Lemma take_body_all_in_body (indent : nat) (rest : list str) :
  forallb (in_body indent) (fst (take_body indent rest)) = true.
Proof.
  induction rest as [|l rest IH]; simpl; [reflexivity|].
  destruct (in_body indent l) eqn:E; [|reflexivity].
  destruct (take_body indent rest). simpl in *. now rewrite E.
Qed.

Lemma take_body_splits (indent : nat) (rest : list str) :
  fst (take_body indent rest) ++ snd (take_body indent rest) = rest.
Proof.
  induction rest as [|l rest IH]; simpl; [reflexivity|].
  destruct (in_body indent l); [|reflexivity].
  destruct (take_body indent rest). simpl in *. now rewrite IH.
Qed.

Lemma logical_blocks_well_formed (n : nat) : forall lines,
  length lines <= n ->
  Forall well_formed_block (logical_blocks_from lines).
Proof.
  induction n as [|n IH]; intros lines Hn.
  - destruct lines; [|simpl in Hn; lia].
    simp logical_blocks_from. constructor.
  - destruct lines as [|l lines]; [simp logical_blocks_from; constructor|].
    simpl in Hn. rewrite logical_blocks_from_cons.
    destruct (non_empty l) eqn:Hne; [|apply IH; lia].
    destruct (opens_block l) eqn:Hopen; constructor.
    + exists l, (fst (take_body (get_indent l) lines)).
      rewrite Hopen. auto using take_body_all_in_body.
    + apply IH.
      pose proof (take_body_splits (get_indent l) lines) as Hs.
      apply (f_equal (@length str)) in Hs. rewrite length_app in Hs. lia.
    + exists l, []. rewrite Hopen. auto.
    + apply IH. lia.
Qed.

(** X7.  Every block of the logical strategy starts with a non-blank
    line.  If that line opens a block, the other lines of the block are all
    blank or indented deeper than it; if it does not, the block is that
    single line.  Blank lines therefore occur only inside the block of a
    header. *)
Theorem logical_blocks_have_one_shape (lines : list str) :
  Forall well_formed_block (split_into_logical_blocks lines)
  /\ Forall (fun b : block => b <> [] /\ non_empty (hd [] b) = true)
       (split_into_logical_blocks lines).
Proof.
  pose proof (logical_blocks_well_formed (length lines) lines (le_n _))
    as H.
  split; [exact H|].
  eapply Forall_impl; [|exact H].
  intros b (first & rest & -> & Hne & _). split; [discriminate|exact Hne].
Qed.

(** X8.  When no line of the input opens a block, the logical strategy
    gives one block per non-blank line, in order. *)
Theorem no_keyword_gives_single_lines (lines : list str) :
  forallb (fun l => negb (opens_block l)) lines = true ->
  split_into_logical_blocks lines =
    map (fun l => [l]) (filter non_empty lines).
Proof.
  unfold split_into_logical_blocks.
  induction lines as [|l lines IH]; intros H.
  - now simp logical_blocks_from.
  - simpl in H. apply andb_true_iff in H as [Hl H].
    apply negb_true_iff in Hl.
    rewrite logical_blocks_from_cons, Hl. cbn [filter].
    destruct (non_empty l); cbn [map]; now rewrite IH.
Qed.

Lemma no_keyword_gives_single_lines_example :
  forallb (fun l => negb (opens_block l))
    [line "x = 1"; line ""; line "    y = 2"; line "print(x)"] = true
  /\ split_into_logical_blocks
       [line "x = 1"; line ""; line "    y = 2"; line "print(x)"] =
     [[line "x = 1"]; [line "    y = 2"]; [line "print(x)"]].
Proof.
  assert (H : forallb (fun l => negb (opens_block l))
                [line "x = 1"; line ""; line "    y = 2"; line "print(x)"]
              = true) by reflexivity.
  split; [exact H|].
  exact (no_keyword_gives_single_lines _ H).
Defined.

(** ** Sessions: what every state of the window satisfies *)

(** Blocks of size 3: between one and five lines each, at least three as
    soon as there are two blocks, and a single block up to five lines. *)
Lemma blocks_of_three (lines : list str) :
  Forall (fun b : block => 1 <= length b <= 5)
    (split_into_blocks_by_lines lines (Some 3%Z))
  /\ (2 <= length (split_into_blocks_by_lines lines (Some 3%Z)) ->
      Forall (fun b : block => 3 <= length b)
        (split_into_blocks_by_lines lines (Some 3%Z)))
  /\ (length (filter non_empty lines) <= 5 ->
      length (split_into_blocks_by_lines lines (Some 3%Z)) <= 1).
Proof.
  destruct (Nat.lt_ge_cases (length (filter non_empty lines)) 3)
    as [Hlt|Hge].
  - rewrite (split_of_chunks lines 3%Z [] (filter non_empty lines));
      [|lia|reflexivity|constructor|lia].
    destruct (filter non_empty lines) as [|l ls]; cbn [truthy].
    + repeat split; [constructor|simpl; lia|simpl; lia].
    + repeat split; [|simpl; lia|simpl; lia].
      constructor; [simpl in *; lia|constructor].
  - assert (H3 : (0 < 3)%Z) by lia.
    assert (Hn : (3 <= Z.of_nat (length (filter non_empty lines)))%Z)
      by lia.
    destruct (fixed_size_block_lengths_aux lines 3%Z H3 Hn)
      as (Hcount & Hinit & Hlast).
    assert (Hnil : split_into_blocks_by_lines lines (Some 3%Z) <> []).
    { intros E. rewrite E in Hcount. cbn [length] in Hcount.
      assert (1 <= Z.of_nat (length (filter non_empty lines)) / 3)%Z
        by (apply Z.div_le_lower_bound; lia).
      lia. }
    assert (Hall : Forall (fun b : block => 3 <= length b <= 5)
                     (split_into_blocks_by_lines lines (Some 3%Z))).
    { rewrite (app_removelast_last [] Hnil). apply Forall_app. split.
      - eapply Forall_impl; [|exact Hinit].
        intros c Hc. cbv beta in Hc. lia.
      - constructor; [|constructor]. cbv beta. split.
        + apply (proj2 (Nat2Z.inj_le 3 _)). exact (proj1 Hlast).
        + apply Nat.lt_succ_r, (proj2 (Nat2Z.inj_lt _ 6)).
          exact (proj2 Hlast). }
    split; [|split].
    + eapply Forall_impl; [|exact Hall]. intros c Hc. cbv beta in Hc. lia.
    + intros _. eapply Forall_impl; [|exact Hall].
      intros c Hc. cbv beta in Hc. lia.
    + intros H5.
      assert (Z.of_nat (length (filter non_empty lines)) / 3 <= 1)%Z.
      { apply Z.lt_succ_r. apply Z.div_lt_upper_bound; lia. }
      lia.
Qed.

Lemma apply_moves_reorders (moves : list (nat * nat)) (s : App) :
  list_widget (reorders moves s) = apply_moves moves (list_widget s).
Proof.
  revert s; induction moves as [|m moves IH]; intros s; [reflexivity|].
  unfold reorders, apply_moves in *. cbn [fold_left]. now rewrite IH.
Qed.

Lemma move_row_nil {A} (src dst : nat) : move_row src dst (@nil A) = [].
Proof. unfold move_row. now destruct src. Qed.

Lemma apply_moves_nil {A} (moves : list (nat * nat)) :
  apply_moves moves (@nil A) = [].
Proof.
  induction moves as [|m moves IH]; [reflexivity|].
  unfold apply_moves in *. cbn [fold_left]. now rewrite move_row_nil.
Qed.

Section Sessions.

Variable path_join : str -> list str -> str.
Variable fs : str -> node.
Variable upper : str -> str.

Let load := load_code_by_language_and_difficulty path_join fs upper.

(** A load that returns either went through, or only emptied the list. *)
Lemma load_cases tape language difficulty s s' log :
  load tape language difficulty s = returned s' log ->
  loaded (load tape language difficulty s) s' \/ s' = clear_list s.
Proof.
  unfold loaded, load, load_code_by_language_and_difficulty.
  destruct (fs (path_join (lit "snippets") [language; difficulty]))
    as [|names|]; try discriminate.
  - intros H. injection H as <- _. now right.
  - destruct (truthy _); cbn [negb].
    + destruct (random_choice _ _); try discriminate.
      destruct (fs _); try discriminate.
      intros H. injection H as <- <-. now left.
    + intros H. injection H as <- _. now right.
Qed.

(** The invariant of the window. *)
Definition session_invariant (s : App) : Prop :=
  Permutation (code_blocks s) (correct_order s)
  /\ (list_widget s = []
      \/ Permutation (list_widget s) (map block_text (correct_order s)))
  /\ Forall (fun b : block =>
               forallb non_empty b = true /\ 1 <= length b <= 5)
       (correct_order s)
  /\ (2 <= length (correct_order s) ->
      Forall (fun b : block => 3 <= length b) (correct_order s))
  /\ (current_file s = []
      \/ endswith (current_file s) (lit ".txt") = true).

Lemma loaded_invariant tape language difficulty s s' :
  loaded (load tape language difficulty s) s' -> session_invariant s'.
Proof.
  intros Hload.
  destruct (load_inversion path_join fs upper _ _ _ _ _ Hload)
    as (names & text & _ & Hpick & _ & Hcorrect & Hshuffle & Hrows).
  destruct (blocks_of_three (readlines text)) as (Hlen & Hbig & _).
  pose proof (forallb_filter_id non_empty (readlines text)) as Hcode.
  rewrite <- (split_concat (readlines text) (Some 3%Z)), forallb_concat
    in Hcode.
  rewrite <- Hcorrect in *.
  assert (Hperm : Permutation (code_blocks s') (correct_order s')).
  { rewrite Hshuffle. apply random_shuffle_perm. }
  repeat split; auto.
  - right. rewrite Hrows. now apply Permutation_map.
  - apply Forall_forall. intros b Hb. split.
    + now apply (proj1 (forallb_forall _ _) Hcode).
    + now apply (proj1 (Forall_forall _ _) Hlen).
  - right. apply nth_error_In, filter_In in Hpick. apply Hpick.
Qed.

(** X9.  In every state the window can reach, by loads that succeed or
    fail, cancelled dialogs and drags: [code_blocks] is a permutation of
    [correct_order]; the rows of the list are either none at all or a
    permutation of the texts of the canonical blocks; every canonical
    block holds only non-blank lines, between one and five of them, and at
    least three when there are several blocks; and the file name, once
    set, ends in [.txt]. *)
Theorem every_reachable_state_is_consistent (s : App) :
  reachable path_join fs upper s -> session_invariant s.
Proof.
  induction 1 as [|a s s' Hreach IH Hstep].
  - unfold session_invariant, initial. simpl.
    repeat split; auto.
  - destruct IH as (Hperm & Hrows & Hblocks & Hbig & Hname).
    destruct a as [tape lang_dialog diff_dialog|src dst]; simpl in Hstep.
    + unfold load_random_code in Hstep.
      assert (Hsame : Some s = Some s' -> session_invariant s').
      { intros E. injection E as <-. repeat split; auto. }
      destruct lang_dialog as [language|]; [|auto].
      destruct diff_dialog as [difficulty|]; [|auto].
      destruct (truthy language && truthy difficulty); [|auto].
      destruct (load_code_by_language_and_difficulty path_join fs upper
                  tape language difficulty s) as [s1 log|] eqn:Hload;
        [|discriminate].
      injection Hstep as <-.
      destruct (load_cases _ _ _ _ _ _ Hload) as [Hok| ->].
      * exact (loaded_invariant _ _ _ _ _ Hok).
      * unfold session_invariant, clear_list. simpl. repeat split; auto.
    + injection Hstep as <-.
      unfold session_invariant, reorder. simpl. repeat split; auto.
      destruct Hrows as [->|Hrows].
      * left. apply move_row_nil.
      * right. rewrite move_row_perm. exact Hrows.
Qed.

End Sessions.

(** The demo session, solved, is reached by one load and one drag. *)
Lemma every_reachable_state_example :
  reachable posix_join demo_fs ascii_upper demo_solved
  /\ Permutation (code_blocks demo_solved) (correct_order demo_solved).
Proof.
  assert (H : reachable posix_join demo_fs ascii_upper demo_solved).
  { apply (reach_step posix_join demo_fs ascii_upper (drag 0 1)
             demo_session demo_solved); [|reflexivity].
    apply (reach_step posix_join demo_fs ascii_upper
             (press_load [0; 0] (Some (lit "python")) (Some (lit "easy")))
             initial demo_session); [|reflexivity].
    apply reach_initial. }
  split; [exact H|].
  exact (proj1 (every_reachable_state_is_consistent
                  posix_join demo_fs ascii_upper demo_solved H)).
Defined.

(** ** Sessions: puzzles that are solved, solvable, or stuck *)

Lemma move_row_cons {A} (i j : nat) (x : A) (l : list A) :
  move_row (S i) (S j) (x :: l) = x :: move_row i j l.
Proof.
  unfold move_row. cbn [nth_error].
  destruct (nth_error l i); reflexivity.
Qed.

Lemma apply_moves_cons {A} (moves : list (nat * nat)) (x : A)
  (l : list A) :
  apply_moves (map (fun m => (S (fst m), S (snd m))) moves) (x :: l) =
  x :: apply_moves moves l.
Proof.
  revert l; induction moves as [|m moves IH]; intros l; [reflexivity|].
  unfold apply_moves in *. cbn [map fold_left fst snd].
  now rewrite move_row_cons, IH.
Qed.

(** Any rearrangement of the rows can be made by drags. *)
Lemma permutation_by_moves {A} (l l' : list A) :
  Permutation l l' -> exists moves, apply_moves moves l = l'.
Proof.
  induction 1 as [|x l l' _ [moves IH]|x y l|l l' l'' _ [m1 IH1] _ [m2 IH2]].
  - now exists [].
  - exists (map (fun m => (S (fst m), S (snd m))) moves).
    now rewrite apply_moves_cons, IH.
  - now exists [(0, 1)].
  - exists (m1 ++ m2). unfold apply_moves in *.
    now rewrite fold_left_app, IH1, IH2.
Qed.

Section Puzzles.

Variable path_join : str -> list str -> str.
Variable fs : str -> node.
Variable upper : str -> str.

Let load := load_code_by_language_and_difficulty path_join fs upper.

(** X10.  Every puzzle that was loaded can be solved by dragging: from the
    rows as the load shuffled them, some sequence of drags makes
    [check_order] report a correct order. *)
Theorem loaded_puzzle_can_be_solved tape language difficulty (s0 s1 : App) :
  loaded (load tape language difficulty s0) s1 ->
  exists moves, check_order (reorders moves s1) = correct_box.
Proof.
  intros Hload.
  destruct (load_inversion path_join fs upper _ _ _ _ _ Hload)
    as (names & text & _ & _ & _ & _ & Hshuffle & Hrows).
  assert (Hperm : Permutation (list_widget s1)
                    (map block_text (correct_order s1))).
  { rewrite Hrows, Hshuffle. apply Permutation_map, random_shuffle_perm. }
  destruct (permutation_by_moves _ _ Hperm) as [moves Hmoves].
  exists moves. apply check_order_correct_box, blocks_eqb_eq.
  unfold user_blocks, correct_blocks.
  rewrite apply_moves_reorders, Hmoves.
  now destruct (reorders_correct_order moves s1) as (-> & _).
Qed.

(** X11.  A file without a non-blank line is loaded all the same: the
    puzzle has no block and no row, and [check_order] reports a correct
    order at once and after any drag. *)
Theorem blank_file_gives_an_empty_solved_puzzle
  tape language difficulty (s0 s1 : App) (text : str) :
  loaded (load tape language difficulty s0) s1 ->
  fs (path_join (path_join (lit "snippets") [language; difficulty])
        [current_file s1]) = File text ->
  existsb non_empty (readlines text) = false ->
  correct_order s1 = [] /\ list_widget s1 = []
  /\ forall moves, check_order (reorders moves s1) = correct_box.
Proof.
  intros Hload Hfile Hblank.
  destruct (load_inversion path_join fs upper _ _ _ _ _ Hload)
    as (names & text' & _ & _ & Hfile' & Hcorrect & Hshuffle & Hrows).
  rewrite Hfile in Hfile'. injection Hfile' as <-.
  assert (Hnone : correct_order s1 = []).
  { rewrite Hcorrect.
    now apply split_blank_input. }
  assert (Hrows0 : list_widget s1 = []).
  { rewrite Hrows, Hshuffle, Hnone. reflexivity. }
  repeat split; auto.
  intros moves. apply check_order_correct_box, blocks_eqb_eq.
  unfold user_blocks, correct_blocks.
  rewrite apply_moves_reorders, Hrows0, apply_moves_nil.
  destruct (reorders_correct_order moves s1) as (-> & _).
  now rewrite Hnone.
Qed.

(** X12.  A file of one to five non-blank lines makes a single block, so
    the puzzle comes up solved whatever the draws: [check_order] reports a
    correct order right after the load. *)
Theorem short_file_is_already_solved
  tape language difficulty (s0 s1 : App) (text : str) :
  loaded (load tape language difficulty s0) s1 ->
  fs (path_join (path_join (lit "snippets") [language; difficulty])
        [current_file s1]) = File text ->
  1 <= length (filter non_empty (readlines text)) <= 5 ->
  correct_order s1 = [filter non_empty (readlines text)]
  /\ check_order s1 = correct_box.
Proof.
  intros Hload Hfile Hshort.
  destruct (load_inversion path_join fs upper _ _ _ _ _ Hload)
    as (names & text' & _ & _ & Hfile' & Hcorrect & Hshuffle & Hrows).
  rewrite Hfile in Hfile'. injection Hfile' as <-.
  destruct (blocks_of_three (readlines text)) as (_ & _ & Hone).
  specialize (Hone (proj2 Hshort)).
  pose proof (split_concat (readlines text) (Some 3%Z)) as Hcat.
  rewrite <- Hcorrect in *.
  assert (Hsingle : correct_order s1 = [filter non_empty (readlines text)]).
  { destruct (correct_order s1) as [|b [|b' bs]].
    - simpl in Hcat. rewrite <- Hcat in Hshort. simpl in Hshort. lia.
    - simpl in Hcat. rewrite app_nil_r in Hcat. now rewrite Hcat.
    - simpl in Hone. lia. }
  split; [exact Hsingle|].
  apply check_order_correct_box, blocks_eqb_eq.
  unfold user_blocks, correct_blocks.
  rewrite Hrows, Hshuffle, Hsingle. reflexivity.
Qed.

(** X13.  After a load that fails while a puzzle is on screen, that puzzle
    can no longer be completed: the canonical blocks are still there, the
    rows are gone, and no sequence of drags makes [check_order] report a
    correct order. *)
Theorem failed_load_leaves_puzzle_stuck
  tape language difficulty (s s' : App) (log : list event) :
  load tape language difficulty s = returned s' log ->
  log <> [] ->
  correct_order s <> [] ->
  correct_order s' = correct_order s
  /\ forall moves,
       list_widget (reorders moves s') = []
       /\ check_order (reorders moves s') <> correct_box.
Proof.
  intros Hload Hlog Hpuzzle.
  destruct (load_cases path_join fs upper _ _ _ _ _ _ Hload) as [Hok | ->].
  - unfold loaded in Hok. fold load in Hok. rewrite Hload in Hok.
    injection Hok as Hnil. contradiction.
  - split; [reflexivity|]. intros moves.
    assert (Hrows : list_widget (reorders moves (clear_list s)) = []).
    { rewrite apply_moves_reorders. apply apply_moves_nil. }
    split; [exact Hrows|].
    intros Hok. apply check_order_correct_box, blocks_eqb_eq in Hok.
    unfold user_blocks, correct_blocks in Hok. rewrite Hrows in Hok.
    destruct (reorders_correct_order moves (clear_list s)) as (Hc & _).
    rewrite Hc in Hok. cbn [clear_list correct_order] in Hok.
    destruct (correct_order s); [contradiction|discriminate].
Qed.

End Puzzles.

(** The demo session, loaded with its blocks swapped, can be solved. *)
Lemma loaded_puzzle_can_be_solved_example :
  loaded (demo_load [0; 0] "python" "easy" initial) demo_session
  /\ exists moves, check_order (reorders moves demo_session) = correct_box.
Proof.
  assert (H : loaded (demo_load [0; 0] "python" "easy" initial) demo_session)
    by reflexivity.
  split; [exact H|].
  exact (loaded_puzzle_can_be_solved posix_join demo_fs ascii_upper
           [0; 0] (lit "python") (lit "easy") initial demo_session H).
Defined.

(** The file of three blank lines. *)
Lemma blank_file_example :
  (loaded (small_load [0] "python" "easy" initial) blank_session
   /\ existsb non_empty (readlines (line "" ++ line "   " ++ line ""))
      = false)
  /\ correct_order blank_session = []
  /\ check_order blank_session = correct_box.
Proof.
  assert (H1 : loaded (small_load [0] "python" "easy" initial)
                 blank_session) by reflexivity.
  assert (H2 : existsb non_empty
                 (readlines (line "" ++ line "   " ++ line "")) = false)
    by reflexivity.
  split; [split; [exact H1 | exact H2]|].
  destruct (blank_file_gives_an_empty_solved_puzzle
              posix_join small_fs ascii_upper [0] (lit "python")
              (lit "easy") initial blank_session
              (line "" ++ line "   " ++ line "") H1 eq_refl H2)
    as (Hc & _ & Hok).
  split; [exact Hc | exact (Hok [])].
Defined.

(** The file of four lines of code. *)
Lemma short_file_example :
  (loaded (small_load [0] "python" "medium" initial) tiny_session
   /\ 1 <= length (filter non_empty
                     (readlines (line "a = 1" ++ line "b = 2" ++ line ""
                                 ++ line "c = a + b" ++ line "print(c)")))
      <= 5)
  /\ check_order tiny_session = correct_box.
Proof.
  assert (H1 : loaded (small_load [0] "python" "medium" initial)
                 tiny_session) by reflexivity.
  assert (H2 : 1 <= length (filter non_empty
                     (readlines (line "a = 1" ++ line "b = 2" ++ line ""
                                 ++ line "c = a + b" ++ line "print(c)")))
               <= 5) by (vm_compute; lia).
  split; [split; [exact H1 | exact H2]|].
  exact (proj2 (short_file_is_already_solved
                  posix_join small_fs ascii_upper [0] (lit "python")
                  (lit "medium") initial tiny_session _ H1 eq_refl H2)).
Defined.

(** The solved demo session, then a load from a folder that is missing. *)
Lemma failed_load_leaves_puzzle_stuck_example :
  (demo_load [] "cpp" "hard" demo_solved =
     returned (clear_list demo_solved)
       [critical (lit "Помилка")
          (lit "Папка 'snippets/cpp/hard' не знайдена.")]
   /\ correct_order demo_solved <> [])
  /\ forall moves,
       check_order (reorders moves (clear_list demo_solved)) <> correct_box.
Proof.
  assert (H1 : demo_load [] "cpp" "hard" demo_solved =
               returned (clear_list demo_solved)
                 [critical (lit "Помилка")
                    (lit "Папка 'snippets/cpp/hard' не знайдена.")])
    by (vm_compute; reflexivity).
  assert (H2 : [critical (lit "Помилка")
                  (lit "Папка 'snippets/cpp/hard' не знайдена.")] <> [])
    by discriminate.
  assert (H3 : correct_order demo_solved <> []) by discriminate.
  split; [split; [exact H1 | exact H3]|].
  intros moves.
  exact (proj2 (proj2 (failed_load_leaves_puzzle_stuck
                         posix_join demo_fs ascii_upper [] (lit "cpp")
                         (lit "hard") demo_solved (clear_list demo_solved)
                         _ H1 H2 H3) moves)).
Defined.

(** ** Running: what is written and launched, and when *)

Lemma startswith_app (a b : str) : startswith (a ++ b) a = true.
Proof.
  induction a as [|c a IH]; simpl; [now destruct b|].
  now rewrite N.eqb_refl, IH.
Qed.

Lemma endswith_app (a b : str) : endswith (a ++ b) b = true.
Proof. unfold endswith. rewrite rev_app_distr. apply startswith_app. Qed.

Lemma startswith_app_l (s p t : str) :
  startswith s p = true -> startswith (s ++ t) p = true.
Proof.
  revert s; induction p as [|c p IH]; intros s H;
    [now destruct (s ++ t)|].
  destruct s as [|d s]; [discriminate|]. cbn [app startswith] in *.
  apply andb_true_iff in H as [-> H]. now rewrite IH.
Qed.

Lemma endswith_app_r (s p a : str) :
  endswith s p = true -> endswith (a ++ s) p = true.
Proof.
  unfold endswith. rewrite rev_app_distr. apply startswith_app_l.
Qed.

Lemma endswith_refl (s : str) : endswith s s = true.
Proof.
  unfold endswith. rewrite <- (app_nil_r (rev s)) at 1.
  apply startswith_app.
Qed.

Lemma contains_app (pre x post : str) :
  contains (pre ++ x ++ post) x = true.
Proof.
  induction pre as [|c pre IH].
  - cbn [app]. destruct (x ++ post) eqn:E; cbn [contains];
      rewrite <- E, startswith_app; reflexivity.
  - cbn [app contains]. rewrite IH. apply orb_true_r.
Qed.

(** Replacing an [old] that does occur puts [new] in the result. *)
Lemma replace_puts_new (s old new : str) :
  old <> [] -> contains s old = true ->
  exists pre rest, replace s old new = pre ++ new ++ rest.
Proof.
  intros Hold. unfold replace.
  induction s as [|c s IH]; intros H.
  - cbn [contains] in H. destruct old; [contradiction|discriminate].
  - cbn [replace_go]. destruct (startswith (c :: s) old) eqn:E.
    + now exists [], (replace_go old new (length old - 1) s).
    + cbn [contains] in H. rewrite E in H. cbn [orb] in H.
      destruct (IH H) as (pre & rest & ->).
      now exists (c :: pre), rest.
Qed.

Lemma startswith_nil (s : str) : startswith s [] = true.
Proof. now destruct s. Qed.

Lemma startswith_long_prefix (p t u : str) :
  length p <= length t -> startswith (t ++ u) p = startswith t p.
Proof.
  revert t; induction p as [|c p IH]; intros t Hlen.
  - now rewrite !startswith_nil.
  - destruct t as [|d t]; [simpl in Hlen; lia|].
    cbn [app startswith]. rewrite IH; [reflexivity|]. simpl in Hlen. lia.
Qed.

Lemma replace_go_skip (old new l rest : str) :
  replace_go old new (length l) (l ++ rest) = replace_go old new 0 rest.
Proof.
  induction l as [|c l IH]; [reflexivity|].
  cbn [length app replace_go]. exact IH.
Qed.

(** The first occurrence of [old] is replaced, and the replacement goes on
    behind it. *)
Lemma replace_first (old new pre rest : str) :
  old <> [] ->
  contains (pre ++ removelast old) old = false ->
  replace (pre ++ old ++ rest) old new =
  pre ++ new ++ replace rest old new.
Proof.
  intros Hold. unfold replace.
  induction pre as [|c pre IH]; intros Hfirst.
  - cbn [app]. destruct old as [|o old]; [contradiction|].
    cbn [app replace_go].
    change (o :: old ++ rest) with ((o :: old) ++ rest).
    rewrite startswith_app.
    replace (length (o :: old) - 1) with (length old)
      by (cbn [length]; lia).
    now rewrite replace_go_skip.
  - cbn [app contains] in Hfirst.
    apply orb_false_iff in Hfirst as [Hhere Hfirst].
    cbn [app replace_go].
    assert (Hno : startswith (c :: pre ++ old ++ rest) old = false).
    { assert (E : c :: pre ++ old ++ rest =
                  ((c :: pre) ++ removelast old) ++ [last old c] ++ rest).
      { rewrite (app_removelast_last c Hold) at 1.
        rewrite <- !app_assoc. reflexivity. }
      assert (Hlen : length old <= length ((c :: pre) ++ removelast old)).
      { pose proof (f_equal (@length char) (app_removelast_last c Hold))
          as Hl.
        rewrite length_app in Hl. cbn [length] in Hl.
        rewrite length_app. cbn [length]. lia. }
      rewrite E, (startswith_long_prefix _ _ _ Hlen). exact Hhere. }
    rewrite Hno. now rewrite IH.
Qed.

(** Where [old] does not occur nothing changes. *)
Lemma replace_absent (old new s : str) :
  contains s old = false -> replace s old new = s.
Proof.
  unfold replace. induction s as [|c s IH]; intros H; [reflexivity|].
  cbn [contains] in H. apply orb_false_iff in H as [Hhere Hrest].
  cbn [replace_go]. rewrite Hhere. now rewrite IH.
Qed.

(** X14.  The source handed to the compiler always holds the statement
    that waits for Enter.  When the code has no [return 0;] the statement
    is added after the code, which is kept unchanged in front.  When it
    has, every [return 0;], from the left, is kept and the statement is
    put just before it: the first one becomes the statement followed by
    [return 0;], the text before it is unchanged, and the text behind it
    is treated the same way. *)
Theorem cpp_source_always_waits_for_enter (code : str) :
  contains (cpp_code_of code) press_enter = true
  /\ (contains code (lit "return 0;") = false ->
      cpp_code_of code = code ++ [nl] ++ press_enter)
  /\ (forall pre rest,
        code = pre ++ lit "return 0;" ++ rest ->
        contains (pre ++ removelast (lit "return 0;")) (lit "return 0;")
          = false ->
        cpp_code_of code =
          pre ++ (press_enter ++ lit "    return 0;")
          ++ replace rest (lit "return 0;")
               (press_enter ++ lit "    return 0;"))
  /\ (forall pre rest,
        contains (pre ++ removelast (lit "return 0;")) (lit "return 0;")
          = false ->
        replace (pre ++ lit "return 0;" ++ rest) (lit "return 0;")
          (press_enter ++ lit "    return 0;") =
        pre ++ (press_enter ++ lit "    return 0;")
        ++ replace rest (lit "return 0;")
             (press_enter ++ lit "    return 0;"))
  /\ (forall tail,
        contains tail (lit "return 0;") = false ->
        replace tail (lit "return 0;")
          (press_enter ++ lit "    return 0;") = tail).
Proof.
  assert (Hold : lit "return 0;" <> []) by discriminate.
  split; [|split; [|split; [|split]]].
  - unfold cpp_code_of.
    destruct (contains code (lit "return 0;")) eqn:E.
    + destruct (replace_puts_new code (lit "return 0;")
                  (press_enter ++ lit "    return 0;"))
        as (pre & rest & ->); [exact Hold|exact E|].
      rewrite <- app_assoc. apply contains_app.
    + rewrite <- (app_nil_r press_enter) at 1.
      rewrite app_assoc. apply contains_app.
  - unfold cpp_code_of. now intros ->.
  - intros pre rest -> Hfirst. unfold cpp_code_of.
    rewrite contains_app. now apply replace_first.
  - intros pre rest Hfirst. now apply replace_first.
  - intros tail Hnone. now apply replace_absent.
Qed.

(** X15.  [show_output_window] never shows an empty window: with errors
    it shows them under the error heading, followed by the output; with no
    error it shows the output, or a fixed sentence when there is none. *)
Theorem output_window_is_never_empty (output errors : str) :
  exists text,
    show_output_window output errors = window_shown text
    /\ text <> []
    /\ (errors <> [] ->
        exists heading middle,
          text = heading ++ errors ++ middle ++ output)
    /\ (errors = [] -> output <> [] -> text = output).
Proof.
  unfold show_output_window.
  destruct errors as [|e errors]; cbn [truthy].
  - destruct output as [|o output]; cbn [truthy].
    + eexists. split; [reflexivity|].
      repeat split; try congruence. discriminate.
    + eexists. split; [reflexivity|].
      repeat split; try congruence.
  - eexists. split; [reflexivity|]. repeat split; try congruence.
    + discriminate.
    + intros _. exists (lit "❗ ПОМИЛКИ:" ++ [nl]),
        ([nl; nl] ++ lit "---" ++ [nl] ++ lit "🔽 Вивід:" ++ [nl]).
      now rewrite <- !app_assoc.
Qed.

Section Launching.

Variable platform_system : str.
Variable timestamp : Z.
Variable write_file : str -> str -> option str.
Variable subprocess_run : list str -> str + (Z * str * str).
Variable subprocess_popen : list str -> option str.

Let run_cpp := _run_cpp_code write_file subprocess_run subprocess_popen.
Let run_python :=
  _run_python_code platform_system write_file subprocess_popen.
Let run :=
  run_code platform_system timestamp write_file subprocess_run
    subprocess_popen.

(** X16.  [_run_cpp_code] launches nothing but the executable it has just
    had compiled: a launch means that the source was written, that the
    compiler returned 0 and that the launch itself raised nothing, and the
    events are then the write, the compilation and the launch, in that
    order. *)
Theorem executable_runs_only_after_a_clean_compile
  (code : str) (ts : Z) (argv : list str) :
  In (process_spawned argv) (run_cpp code ts) ->
  argv = [exe_file_of ts]
  /\ write_file (cpp_file_of ts) (cpp_code_of code) = None
  /\ (exists stdout stderr,
        subprocess_run [lit "g++"; cpp_file_of ts; lit "-o"; exe_file_of ts]
        = inr (0%Z, stdout, stderr))
  /\ subprocess_popen [exe_file_of ts] = None
  /\ run_cpp code ts =
     [file_written (cpp_file_of ts) (cpp_code_of code);
      compiler_run [lit "g++"; cpp_file_of ts; lit "-o"; exe_file_of ts];
      process_spawned [exe_file_of ts]].
Proof.
  unfold run_cpp, _run_cpp_code. cbv zeta.
  destruct (write_file (cpp_file_of ts) (cpp_code_of code)) as [e|].
  { intros [H|[]]. discriminate H. }
  destruct (subprocess_run _) as [e|[[returncode stdout] stderr]] eqn:Hrun.
  { intros [H|[H|[]]]; discriminate H. }
  destruct (Z.eqb_spec returncode 0) as [->|Hrc]; cbn [negb].
  - destruct (subprocess_popen [exe_file_of ts]) as [e|] eqn:Hpopen.
    + intros [H|[H|[H|[]]]]; discriminate H.
    + intros [H|[H|[H|[]]]]; try discriminate H.
      injection H as <-. repeat split; eauto.
  - intros [H|[H|[H|[]]]]; try discriminate H.
    unfold show_output_window in H. destruct (truthy stderr); discriminate H.
Qed.

(** X17.  [_run_python_code] writes and launches only on Windows: on any
    other platform it shows one error box and touches nothing.  When it
    does launch, it launches [python] on the script it has just written,
    and that script starts with the code and ends with the line that
    deletes the script. *)
Theorem python_script_runs_only_on_windows (code : str) (ts : Z) :
  (platform_system <> lit "Windows" ->
   run_python code ts =
   [critical (lit "Непідтримувано")
      (lit "Запуск з input() працює тільки на Windows.")])
  /\ (forall argv,
        In (process_spawned argv) (run_python code ts) ->
        platform_system = lit "Windows"
        /\ exists content,
             run_python code ts =
               [file_written
                  (lit "temp_code_" ++ str_of_int ts ++ lit ".py") content;
                process_spawned
                  [lit "python";
                   lit "temp_code_" ++ str_of_int ts ++ lit ".py"]]
             /\ argv = [lit "python";
                        lit "temp_code_" ++ str_of_int ts ++ lit ".py"]
             /\ startswith content code = true
             /\ endswith content (lit "os.remove(__file__)" ++ [nl])
                = true).
Proof.
  unfold run_python, _run_python_code. split.
  - intros Hother.
    destruct (eqb platform_system (lit "Windows")) eqn:E; [|reflexivity].
    apply eqb_eq in E. contradiction.
  - intros argv.
    destruct (eqb platform_system (lit "Windows")) eqn:E; cbn [negb].
    + apply eqb_eq in E. cbv zeta.
      destruct (write_file _ _) as [e|].
      { intros [H|[]]. discriminate H. }
      destruct (subprocess_popen _) as [e|].
      { intros [H|[H|[]]]; discriminate H. }
      intros [H|[H|[]]]; try discriminate H.
      injection H as <-. split; [exact E|].
      eexists. split; [reflexivity|]. split; [reflexivity|]. split.
      * apply startswith_app.
      * do 4 apply endswith_app_r. apply endswith_refl.
    + intros [H|[]]. discriminate H.
Qed.

(** X18.  [run_code] writes, compiles or launches only for a correct
    order and a file name in [.py.txt] or [.cpp.txt]: for a wrong order it
    shows one warning box and nothing else, and for a correct order with
    any other file name it does nothing at all. *)
Theorem run_code_acts_only_on_a_solved_runnable_puzzle (s : App) :
  (check_order s <> correct_box ->
   run s = [message_box (lit "Помилка")
              (lit "Код зібрано неправильно, спробуй ще раз)") Warning])
  /\ (check_order s = correct_box ->
      endswith (current_file s) (lit ".py.txt") = false ->
      endswith (current_file s) (lit ".cpp.txt") = false ->
      run s = [])
  /\ (forall e,
        In e (run s) ->
        (forall title text i, e <> message_box title text i) ->
        check_order s = correct_box
        /\ (endswith (current_file s) (lit ".py.txt") = true
            \/ endswith (current_file s) (lit ".cpp.txt") = true)).
Proof.
  unfold run, run_code.
  destruct (blocks_eqb (user_blocks s) (correct_blocks s)) eqn:Hok;
    cbn [negb].
  - assert (Hbox : check_order s = correct_box)
      by now apply check_order_correct_box.
    split; [intros H; contradiction|]. split.
    + now intros _ -> ->.
    + intros e Hin _. split; [exact Hbox|].
      destruct (endswith (current_file s) (lit ".py.txt"));
        [now left|].
      destruct (endswith (current_file s) (lit ".cpp.txt"));
        [now right|contradiction].
  - assert (Hbox : check_order s <> correct_box).
    { intros H. apply check_order_correct_box in H. congruence. }
    split; [reflexivity|]. split; [intros H; contradiction|].
    intros e [<-|[]] Hnot. exfalso. eapply Hnot. reflexivity.
Qed.

End Launching.

(** A compiler that returns 0: the executable is then launched. *)
Lemma executable_runs_example :
  In (process_spawned [exe_file_of 1700000000])
    (_run_cpp_code (fun _ _ => None) (fun _ => inr (0%Z, [], []))
       (fun _ => None) (lit "int main() { return 0; }") 1700000000%Z)
  /\ _run_cpp_code (fun _ _ => None) (fun _ => inr (0%Z, [], []))
       (fun _ => None) (lit "int main() { return 0; }") 1700000000%Z =
     [file_written (cpp_file_of 1700000000)
        (cpp_code_of (lit "int main() { return 0; }"));
      compiler_run [lit "g++"; cpp_file_of 1700000000; lit "-o";
                    exe_file_of 1700000000];
      process_spawned [exe_file_of 1700000000]].
Proof.
  assert (H : In (process_spawned [exe_file_of 1700000000])
                (_run_cpp_code (fun _ _ => None)
                   (fun _ => inr (0%Z, [], [])) (fun _ => None)
                   (lit "int main() { return 0; }") 1700000000%Z)).
  { unfold _run_cpp_code. cbv zeta. cbn [negb Z.eqb].
    right. right. left. reflexivity. }
  split; [exact H|].
  exact (proj2 (proj2 (proj2 (proj2
           (executable_runs_only_after_a_clean_compile
              (fun _ _ => None) (fun _ => inr (0%Z, [], []))
              (fun _ => None) (lit "int main() { return 0; }")
              1700000000%Z [exe_file_of 1700000000] H))))).
Defined.

(** ** The height of a row *)

Lemma count_char_app (c : char) (a b : str) :
  count_char c (a ++ b) = count_char c a + count_char c b.
Proof. unfold count_char. now rewrite filter_app, length_app. Qed.

Lemma count_char_block_text (c : char) (b : block) :
  Forall (fun l => count_char c l = 1) b ->
  count_char c (block_text b) = length b.
Proof.
  unfold block_text. rewrite join_empty_sep.
  induction 1 as [|l b Hl _ IH]; [reflexivity|].
  cbn [concat length]. now rewrite count_char_app, Hl, IH.
Qed.

(** Every line [readlines] gives, except perhaps the last, has exactly one
    line feed. *)
Lemma readlines_go_one_line_feed (cur text : str) :
  count_char nl cur = 0 ->
  Forall (fun l => count_char nl l = 1)
    (removelast (readlines_go cur text)).
Proof.
  revert cur; induction text as [|c text IH]; intros cur Hcur; simpl.
  - destruct cur; constructor.
  - destruct (N.eqb_spec c nl) as [->|Hc].
    + specialize (IH [] eq_refl).
      destruct (readlines_go [] text); constructor; auto.
      rewrite count_char_app, Hcur. reflexivity.
    + apply IH. rewrite count_char_app, Hcur.
      unfold count_char. cbn [filter].
      destruct (N.eqb_spec nl c); [congruence|reflexivity].
Qed.

(** X19.  [sizeHint] gives a row made of [k] complete lines of a file the
    height of [k + 1] lines of text, plus 20: the line feed that ends the
    last line counts for one more line than the row shows. *)
Theorem row_height_counts_one_more_line (lineSpacing : Z) (text : str)
  (b : block) :
  incl b (removelast (readlines text)) ->
  sizeHint_height lineSpacing (block_text b) =
    ((Z.of_nat (length b) + 1) * lineSpacing + 20)%Z.
Proof.
  intros Hb. unfold sizeHint_height. cbv zeta.
  rewrite count_char_block_text; [reflexivity|].
  pose proof (readlines_go_one_line_feed [] text eq_refl) as Hall.
  apply Forall_forall. intros l Hl.
  apply (proj1 (Forall_forall _ _) Hall). now apply Hb.
Qed.

(** The first block of the demo file: three lines, the height of four. *)
Lemma row_height_example :
  incl (repeat (line "n += 1") 3)
    (removelast (readlines (concat (repeat (line "n += 1") 7))))
  /\ sizeHint_height 18 (block_text (repeat (line "n += 1") 3)) = 92%Z.
Proof.
  assert (H : incl (repeat (line "n += 1") 3)
                (removelast
                   (readlines (concat (repeat (line "n += 1") 7))))).
  { intros l Hl. apply repeat_spec in Hl. subst l.
    vm_compute. left. reflexivity. }
  split; [exact H|].
  exact (row_height_counts_one_more_line 18
           (concat (repeat (line "n += 1") 7))
           (repeat (line "n += 1") 3) H).
Defined.

(** ** The logical strategy in plain terms: the program's tests *)

Lemma dropwhile_forallb {A} (p : A -> bool) (l : list A) :
  forallb p (dropwhile p l) = true -> forallb p l = true.
Proof.
  induction l as [|x l IH]; [reflexivity|]. cbn [dropwhile forallb].
  destruct (p x) eqn:E; [exact IH|].
  cbn [forallb]. now rewrite E.
Qed.

Lemma dropwhile_all {A} (p : A -> bool) (l : list A) :
  forallb p l = true -> dropwhile p l = [].
Proof.
  induction l as [|x l IH]; [reflexivity|]. cbn [dropwhile forallb].
  intros H. apply andb_true_iff in H as [-> H]. now apply IH.
Qed.

Lemma forallb_rev {A} (p : A -> bool) (l : list A) :
  forallb p (rev l) = forallb p l.
Proof.
  induction l as [|x l IH]; [reflexivity|]. cbn [rev forallb].
  rewrite forallb_app, IH. cbn [forallb].
  now rewrite andb_true_r, andb_comm.
Qed.

Lemma strip_nil_iff (l : str) : strip l = [] <-> blank_line l.
Proof.
  unfold strip, rstrip, lstrip, blank_line. split.
  - intros H.
    assert (Hd : dropwhile isspace (rev (dropwhile isspace l)) = []).
    { destruct (dropwhile isspace (rev (dropwhile isspace l)));
        [reflexivity|].
      cbn [rev] in H. now apply app_eq_nil in H as [_ H]. }
    apply dropwhile_forallb. rewrite <- forallb_rev.
    apply dropwhile_forallb. now rewrite Hd.
  - intros H. now rewrite (dropwhile_all _ _ H).
Qed.

Lemma non_empty_false_iff (l : str) : non_empty l = false <-> blank_line l.
Proof.
  rewrite <- strip_nil_iff. unfold non_empty.
  destruct (strip l); cbn [truthy]; split; intros; congruence.
Qed.

Lemma length_dropwhile {A} (p : A -> bool) (l : list A) :
  length (dropwhile p l) <= length l.
Proof.
  induction l as [|x l IH]; [apply le_n|]. cbn [dropwhile].
  destruct (p x); simpl; lia.
Qed.

Lemma get_indent_leading_spaces (l : str) :
  get_indent l = leading_spaces l.
Proof.
  unfold get_indent, lstrip_spaces.
  induction l as [|c l IH]; [reflexivity|].
  cbn [dropwhile leading_spaces]. rewrite (N.eqb_sym space c).
  destruct (N.eqb c space).
  - rewrite <- IH. cbn [length].
    apply Nat.sub_succ_l, length_dropwhile.
  - apply Nat.sub_diag.
Qed.

Lemma in_body_iff (header l : str) :
  in_body (get_indent header) l = true <-> in_block_of header l.
Proof.
  unfold in_body, in_block_of.
  rewrite orb_true_iff, eqb_eq, strip_nil_iff, Nat.ltb_lt.
  now rewrite !get_indent_leading_spaces.
Qed.

Lemma forallb_in_body_iff (header : str) (ls : list str) :
  forallb (in_body (get_indent header)) ls = true <->
  Forall (in_block_of header) ls.
Proof.
  rewrite forallb_forall, Forall_forall.
  split; intros H l Hl; apply in_body_iff; auto.
Qed.

Lemma startswith_iff (s p : str) :
  startswith s p = true <-> exists rest, s = p ++ rest.
Proof.
  split.
  - revert s; induction p as [|c p IH]; intros s H.
    + now exists s.
    + destruct s as [|d s]; [discriminate|]. cbn [startswith] in H.
      apply andb_true_iff in H as [Hc H]. apply N.eqb_eq in Hc. subst d.
      destruct (IH s H) as [rest ->]. now exists rest.
  - intros [rest ->]. apply startswith_app.
Qed.

Lemma opens_block_iff (l : str) :
  opens_block l = true <-> starts_with_keyword l.
Proof.
  unfold opens_block, starts_with_keyword, block_keywords.
  rewrite existsb_exists. split.
  - intros (kw & Hin & H). apply startswith_iff in H as [rest H].
    now exists kw, rest.
  - intros (kw & rest & Hin & H). exists kw. split; [exact Hin|].
    apply startswith_iff. now exists rest.
Qed.

Lemma inside_block_iff (before : list str) (l : str) :
  inside_block before l <-> in_open_block before l.
Proof.
  unfold inside_block, in_open_block.
  split; intros (b0 & h & run & Hb & Hh & Hrun); exists b0, h, run;
    (split; [exact Hb|]); split;
    try (now apply opens_block_iff); now apply forallb_in_body_iff.
Qed.

(** A header that no earlier block holds opens a block that ends at the
    first line that is neither blank nor deeper. *)
Lemma header_block_extent (before : list str) (header : str)
  (body after : list str) :
  opens_block header = true ->
  ~ inside_block before header ->
  forallb (in_body (get_indent header)) body = true ->
  fst (take_body (get_indent header) after) = [] ->
  exists blocks1 blocks2,
    logical_blocks_from (before ++ header :: body ++ after) =
      blocks1 ++ (header :: body) :: blocks2
    /\ filter non_empty (concat blocks1) = filter non_empty before.
Proof.
  intros Hopen Hout Hbody Hstop.
  pose proof (opens_block_non_empty header Hopen) as Hne.
  assert (Hhere :
    logical_blocks_from (header :: body ++ after) =
    (header :: body)
    :: logical_blocks_from (snd (take_body (get_indent header) after))).
  { rewrite logical_blocks_from_cons, Hne, Hopen.
    rewrite (take_body_app_run _ _ _ Hbody). cbn [fst snd].
    now rewrite Hstop, app_nil_r. }
  destruct (scan_reaches (length before) before
              (header :: body ++ after) (le_n _))
    as [(bs & Hbs & Hf)
       |(b0 & h & run & bs & Hb & Hh & Hrun & Hbs & Hf)].
  - exists bs, (logical_blocks_from
                  (snd (take_body (get_indent header) after))).
    rewrite Hbs, Hhere. auto.
  - destruct (in_body (get_indent h) header) eqn:Hin.
    + exfalso. apply Hout. exists b0, h, run. repeat split; auto.
      rewrite forallb_app, Hrun. cbn [forallb]. now rewrite Hin.
    + rewrite (take_body_stop _ _ _ Hin) in Hbs. cbn [fst snd] in Hbs.
      rewrite app_nil_r, Hhere in Hbs.
      exists (bs ++ [h :: run]),
        (logical_blocks_from (snd (take_body (get_indent header) after))).
      split.
      * rewrite Hbs, <- app_assoc. reflexivity.
      * rewrite concat_app. cbn [concat].
        rewrite app_nil_r, Hb, !filter_app, Hf. reflexivity.
Qed.

(** C5 (as amended).  Logical-block strategy, with a header being a line
    whose trimmed text starts with one of the nine prefixes, and the
    indentation of a line the number of space characters it starts with.
    A header is in one block with the run of lines that follow it and are
    blank or indented deeper than it, wherever the header stands.  When
    the header lies in no block opened before it, its block is exactly the
    header and that run, ending before the first line that is neither
    blank nor deeper.  A non-blank line that is no header and lies in no
    block opened before it is a block of its own. *)
Theorem keyword_block_is_kept_whole :
  (forall (before : list str) (header : str) (body after : list str),
     starts_with_keyword header ->
     Forall (in_block_of header) body ->
     exists blocks1 pre post blocks2,
       split_into_logical_blocks (before ++ header :: body ++ after) =
         blocks1 ++ (pre ++ header :: body ++ post) :: blocks2
       /\ filter non_empty (concat blocks1 ++ pre) =
          filter non_empty before)
  /\ (forall (before : list str) (header : str) (body after : list str),
        starts_with_keyword header ->
        ~ in_open_block before header ->
        Forall (in_block_of header) body ->
        (after = []
         \/ exists x after', after = x :: after' /\ ~ in_block_of header x) ->
        exists blocks1 blocks2,
          split_into_logical_blocks (before ++ header :: body ++ after) =
            blocks1 ++ (header :: body) :: blocks2
          /\ filter non_empty (concat blocks1) = filter non_empty before)
  /\ (forall (before : list str) (single : str) (after : list str),
        ~ blank_line single ->
        ~ starts_with_keyword single ->
        ~ in_open_block before single ->
        exists blocks1 blocks2,
          split_into_logical_blocks (before ++ single :: after) =
            blocks1 ++ [single] :: blocks2
          /\ filter non_empty (concat blocks1) = filter non_empty before).
Proof.
  split; [|split].
  - intros before header body after Hkw Hbody.
    apply (proj1 logical_block_is_atomic).
    + now apply opens_block_iff.
    + now apply forallb_in_body_iff.
  - intros before header body after Hkw Hout Hbody Hafter.
    apply header_block_extent.
    + now apply opens_block_iff.
    + intros Hin. apply Hout. now apply inside_block_iff.
    + now apply forallb_in_body_iff.
    + destruct Hafter as [->|(x & after' & -> & Hx)]; [reflexivity|].
      cbn [take_body].
      destruct (in_body (get_indent header) x) eqn:E; [|reflexivity].
      exfalso. apply Hx. now apply in_body_iff.
  - intros before single after Hcode Hplain Hout.
    apply (proj2 logical_block_is_atomic).
    + destruct (non_empty single) eqn:E; [reflexivity|].
      exfalso. apply Hcode. now apply non_empty_false_iff.
    + destruct (opens_block single) eqn:E; [|reflexivity].
      exfalso. apply Hplain. now apply opens_block_iff.
    + intros Hin. apply Hout. now apply inside_block_iff.
Qed.

(** The loop of the short program: its block is the header and the three
    lines under it, and ends before [print(total)]. *)
Lemma keyword_block_is_kept_whole_example :
  exists blocks1 blocks2,
    split_into_logical_blocks demo_program =
      blocks1
      ++ (line "for x in xs:"
          :: [line "    if x:"; line ""; line "        total += x"])
      :: blocks2
    /\ filter non_empty (concat blocks1) =
       filter non_empty [line "total = 0"].
Proof.
  apply (proj1 (proj2 keyword_block_is_kept_whole)
           [line "total = 0"] (line "for x in xs:")
           [line "    if x:"; line ""; line "        total += x"]
           [line "print(total)"]).
  - exists (lit "for "), (lit "x in xs:"). split; [|reflexivity].
    right. right. left. reflexivity.
  - intros (b0 & h & run & Hb & Hh & _).
    destruct b0 as [|l0 b0].
    + injection Hb as <- <-. apply opens_block_iff in Hh. discriminate Hh.
    + injection Hb as _ Hb. now destruct b0.
  - apply Forall_cons; [right; vm_compute; lia|].
    apply Forall_cons; [left; reflexivity|].
    apply Forall_cons; [right; vm_compute; lia|apply Forall_nil].
  - right. exists (line "print(total)"), []. split; [reflexivity|].
    intros [Hblank|Hdeep].
    + discriminate Hblank.
    + vm_compute in Hdeep. lia.
Defined.

(** C5, counterexample.  A body indented with tabs is indented deeper than
    its header, and [class] introduces a block; yet the header [if x:] and
    its two tabbed lines come out as three blocks, and [class A:] and its
    body as two. *)
Lemma tab_indented_body_is_split :
  split_into_logical_blocks tabbed_program =
    [[line "if x:"]; [tab :: line "y = 1"]; [tab :: line "z = 2"]]
  /\ split_into_logical_blocks class_program =
     [[line "class A:"]; [line "    x = 1"]].
Proof.
  split.
  - vm_compute. reflexivity.
  - vm_compute. reflexivity.
Qed.

(** C2, the failing input.  Load the demo puzzle, drag it into order, then
    load from a folder that does not exist.  The state is one the window
    reaches; it has two canonical blocks and no row, so the rows are not a
    permutation of the canonical texts. *)
Theorem failed_load_breaks_the_permutation :
  reachable posix_join demo_fs ascii_upper (clear_list demo_solved)
  /\ length (correct_order (clear_list demo_solved)) = 2
  /\ list_widget (clear_list demo_solved) = []
  /\ ~ Permutation (list_widget (clear_list demo_solved))
         (map block_text (correct_order (clear_list demo_solved))).
Proof.
  split; [|split; [reflexivity|split; [reflexivity|]]].
  - apply (reach_step posix_join demo_fs ascii_upper
             (press_load [] (Some (lit "cpp")) (Some (lit "hard")))
             demo_solved); [|vm_compute; reflexivity].
    apply (reach_step posix_join demo_fs ascii_upper (drag 0 1)
             demo_session); [|vm_compute; reflexivity].
    apply (reach_step posix_join demo_fs ascii_upper
             (press_load [0; 0] (Some (lit "python")) (Some (lit "easy")))
             initial); [|vm_compute; reflexivity].
    apply reach_initial.
  - intros H. apply Permutation_length in H. vm_compute in H.
    discriminate H.
Qed.

(** A [main] with one [return 0;]: the statement is put just before it, and
    the text on both sides is unchanged. *)
Lemma cpp_source_example :
  contains (lit "int main() { " ++ removelast (lit "return 0;"))
    (lit "return 0;") = false
  /\ cpp_code_of (lit "int main() { return 0; }") =
     lit "int main() { " ++ (press_enter ++ lit "    return 0;")
     ++ lit " }".
Proof.
  assert (H : contains (lit "int main() { " ++ removelast (lit "return 0;"))
                (lit "return 0;") = false) by reflexivity.
  split; [exact H|].
  exact (proj1 (proj2 (proj2
           (cpp_source_always_waits_for_enter
              (lit "int main() { return 0; }"))))
           (lit "int main() { ") (lit " }") eq_refl H).
Defined.
